(** * FPA: finding private alleles, the per-site pipeline of [FPA.cpp]

    A shallow embedding of the body of the [while (getline ...)] loop of
    [main] in [src/FPA.cpp] (lines 136-230), and the properties of the
    per-site analysis proved on it.

    Conventions of the embedding.
    - A C++ [double] is Rocq's primitive binary64 [float]; [+], [-], [*],
      [/], [<], [>=] on doubles are [PrimFloat.add], [sub], [mul], [div],
      [ltb], [leb], with the IEEE semantics the hardware gives them (NaN
      included).
    - [atof], [pow] and [log10] come from the C library, not from this
      program: they are parameters of the development.
    - An [int] is a [Z]; the only sum that can leave the range of a 32-bit
      [int], [tot_cov], has its wrap-around written out.
    - A [vector] is a [list], [push_back] appends at the end.
    - The arrays declared before the loop are indexed by the population
      counter [pg], from 1.  [Nc] is assigned only for populations with
      data, so it is threaded from line to line as the code has it, and so
      is [maf_total], which is assigned only when a site has alleles.
    - The array [pol_llstat] is written and read in the same statement
      pair (lines 158-159) and nowhere else: it is a local value here.
    - A [site_line] is the content of the variables once lines 142 and
      144 have run for every population: on a line with exactly three
      leading tokens and nine tokens per population, these tokens.  The
      variables are declared before the loop and keep their values where
      [operator>>] reads nothing; [run_lines] threads them all from line
      to line.  A token is text: it holds no NUL character, so that
      [c_str()] gives the token itself. *)

From Stdlib Require Import ZArith List Ascii String Bool Lia Floats Uint63 Permutation.
Import ListNotations.

#[local] Set Warnings "-inexact-float".
#[local] Open Scope Z_scope.

(** ** Data *)

Definition double := float.

(** The nine tokens of one population, line 144.  [pop_cov] is read into
    an [int]; the other numeric columns are kept as strings and converted
    where they are used. *)
Record population := mk_population {
  n1 : string;
  n2 : string;
  pop_cov : Z;
  s_Nc : string;
  s_best_p : string;
  s_best_q : string;
  best_error : string;
  s_best_H : string;
  s_pol_llstat : string
}.

(** One line of the main data, lines 142-144. *)
Record site_line := mk_site_line {
  scaffold : string;
  site : Z;
  ref_nuc : string;
  populations : list population
}.

(** What the first loop over the populations accumulates, lines 138-168. *)
Record scan := mk_scan {
  tot_cov : Z;
  ne_pops : Z;
  sum_Nc : double;
  alleles : list string;
  Nc : nat -> double
}.

(** What the loop over the populations accumulates for one allele,
    lines 185-201. *)
Record tally := mk_tally {
  id_pop_a : list nat;
  freq_a : list double;
  sum_freq_a : double
}.

(** The five vectors on private alleles (lines 128-133) are pushed to
    together and read together at the same index: one entry of each. *)
Record private_entry := mk_private_entry {
  private_allele : string;
  id_pop_pa : nat;
  focal_paf : double;
  total_paf : double;
  log_prob_pa : double
}.

Record report := mk_report {
  maf_total : double;
  private_entries : list private_entry
}.

(** The arguments of the [fprintf] of line 226, in column order. *)
Record out_row := mk_out_row {
  o_scaffold : string;
  o_site : Z;
  o_ref_nuc : string;
  o_tot_cov : Z;
  o_ne_pops : Z;
  o_num_alleles : Z;
  o_private_allele : string;
  o_id_pop : nat;
  o_focal_frequency : double;
  o_total_frequency : double;
  o_log_prob_pa : double;
  o_MAF : double
}.

(** What survives from one line to the next. *)
Record carried := mk_carried {
  Nc_prev : nat -> double;
  maf_prev : double
}.

(** What the reads of lines 142 and 144 do to the variables of one
    population and of one line: [operator>>] gives a variable a value, or
    leaves it as it was (nothing left to read, or the stream has failed
    before). *)
Record read_population := mk_read_population {
  got_n1 : option string;
  got_n2 : option string;
  got_pop_cov : option Z;
  got_s_Nc : option string;
  got_s_best_p : option string;
  got_s_best_q : option string;
  got_best_error : option string;
  got_s_best_H : option string;
  got_s_pol_llstat : option string
}.

Record read_line := mk_read_line {
  got_scaffold : option string;
  got_site : option Z;
  got_ref_nuc : option string;
  got_populations : list read_population
}.

(** The variables declared before the loop, lines 111-134: the cells 1 to
    [num_pops] of the arrays [n1], [n2], [pop_cov], [s_Nc], [s_best_p],
    [s_best_q], [s_best_H] and [s_pol_llstat] as a list of populations,
    the one string [best_error] apart (the field of that name in a cell
    is what the string held when the cell was read), and [Nc] and
    [maf_total]. *)
Record variables := mk_variables {
  v_scaffold : string;
  v_site : Z;
  v_ref_nuc : string;
  v_best_error : string;
  v_cells : list population;
  v_carried : carried
}.

Definition assign {A : Type} (got : option A) (old : A) : A :=
  match got with
  | Some v => v
  | None => old
  end.

(** A population of which nothing is read. *)
Definition untouched : read_population :=
  mk_read_population None None None None None None None None None.

(** A line on which nothing is read: an empty line. *)
Definition blank_line : read_line := mk_read_line None None None [].

(** Line 144 for the populations from some [pg] on: the cells take what
    is read, [best_error] goes from one population to the next. *)
Fixpoint read_cells (best_error_now : string) (cells : list population)
    (got : list read_population) : list population * string :=
  match cells with
  | [] => ([], best_error_now)
  | k :: cells' =>
      let g := hd untouched got in
      let e := assign (got_best_error g) best_error_now in
      let p := mk_population
                 (assign (got_n1 g) (n1 k)) (assign (got_n2 g) (n2 k))
                 (assign (got_pop_cov g) (pop_cov k))
                 (assign (got_s_Nc g) (s_Nc k))
                 (assign (got_s_best_p g) (s_best_p k))
                 (assign (got_s_best_q g) (s_best_q k))
                 e
                 (assign (got_s_best_H g) (s_best_H k))
                 (assign (got_s_pol_llstat g) (s_pol_llstat k)) in
      let '(ps, e') := read_cells e cells' (tl got) in
      (p :: ps, e')
  end.

(** Lines 142 and 144: the variables after the reads of a line. *)
Definition read_variables (v : variables) (g : read_line) : variables :=
  let '(ps, e) := read_cells (v_best_error v) (v_cells v) (got_populations g) in
  mk_variables (assign (got_scaffold g) (v_scaffold v))
    (assign (got_site g) (v_site v)) (assign (got_ref_nuc g) (v_ref_nuc v))
    e ps (v_carried v).

(** The line the variables hold. *)
Definition line_of (v : variables) : site_line :=
  mk_site_line (v_scaffold v) (v_site v) (v_ref_nuc v) (v_cells v).

(** A line of which every variable is read, for [n] populations, and the
    line it is. *)
Definition all_read (g : read_population) : bool :=
  match g with
  | mk_read_population (Some _) (Some _) (Some _) (Some _) (Some _)
      (Some _) (Some _) (Some _) (Some _) => true
  | _ => false
  end.

Definition complete_line (n : nat) (g : read_line) : bool :=
  match got_scaffold g, got_site g, got_ref_nuc g with
  | Some _, Some _, Some _ =>
      Nat.leb n (List.length (got_populations g))
      && forallb all_read (firstn n (got_populations g))
  | _, _, _ => false
  end.

Definition population_read (g : read_population) : population :=
  mk_population (assign (got_n1 g) EmptyString) (assign (got_n2 g) EmptyString)
    (assign (got_pop_cov g) 0) (assign (got_s_Nc g) EmptyString)
    (assign (got_s_best_p g) EmptyString) (assign (got_s_best_q g) EmptyString)
    (assign (got_best_error g) EmptyString) (assign (got_s_best_H g) EmptyString)
    (assign (got_s_pol_llstat g) EmptyString).

Definition line_read (n : nat) (g : read_line) : site_line :=
  mk_site_line (assign (got_scaffold g) EmptyString) (assign (got_site g) 0)
    (assign (got_ref_nuc g) EmptyString)
    (map population_read (firstn n (got_populations g))).

(** A cell with another [best_error]. *)
Definition with_best_error (e : string) (p : population) : population :=
  mk_population (n1 p) (n2 p) (pop_cov p) (s_Nc p) (s_best_p p) (s_best_q p)
    e (s_best_H p) (s_pol_llstat p).

(** ** Arithmetic of the machine types *)

(** A 32-bit two's complement [int]. *)
Definition int_wrap (z : Z) : Z := (z + 2 ^ 31) mod 2 ^ 32 - 2 ^ 31.

(** The conversion of an [int] to a [double], exact on 32-bit values. *)
Definition double_of_int (z : Z) : double :=
  if z <? 0 then PrimFloat.opp (PrimFloat.of_uint63 (Uint63.of_Z (- z)))
  else PrimFloat.of_uint63 (Uint63.of_Z z).

(** Assignment to one cell of an array. *)
Definition upd (arr : nat -> double) (i : nat) (x : double) : nat -> double :=
  fun j => if Nat.eqb j i then x else arr j.

(** ** The vector of alleles *)

(** [find(alleles.begin(), alleles.end(), a) == alleles.end()] is the
    negation of [has_allele]. *)
Definition has_allele (als : list string) (a : string) : bool :=
  existsb (String.eqb a) als.

(** Lines 153-156 and 160-163: [push_back] unless already there. *)
Definition add_allele (als : list string) (a : string) : list string :=
  if has_allele als a then als else als ++ [a].

Definition NA : string := "NA".

(** ** A reader of plain decimals

    The tokens of the examples are plain decimal numerals with few digits
    ([25], [0.9], [5.991]).  On such a numeral [atof] returns the double
    nearest to the quotient of two integers that are themselves doubles,
    which is what one correctly rounded division gives.  Anything that
    does not start with a digit reads as zero, as [atof] does with [NA]. *)

Definition digit_of (c : Ascii.ascii) : option Z :=
  let n := Z.of_nat (Ascii.nat_of_ascii c) in
  if (48 <=? n) && (n <=? 57) then Some (n - 48) else None.

Fixpoint read_digits (s : string) (acc : Z) (k : Z) : Z * Z * string :=
  match s with
  | EmptyString => (acc, k, s)
  | String c s' =>
      match digit_of c with
      | Some d => read_digits s' (10 * acc + d) (k + 1)
      | None => (acc, k, s)
      end
  end.

Definition atof_decimal (s : string) : double :=
  let '(neg, s1) :=
    match s with
    | String "-"%char s' => (true, s')
    | _ => (false, s)
    end in
  let '(ip, _, rest) := read_digits s1 0 0 in
  let '(m, k) :=
    match rest with
    | String "."%char s2 => let '(m, k, _) := read_digits s2 ip 0 in (m, k)
    | _ => (ip, 0)
    end in
  let x := PrimFloat.div (PrimFloat.of_uint63 (Uint63.of_Z m))
                         (PrimFloat.of_uint63 (Uint63.of_Z (10 ^ k))) in
  if neg then PrimFloat.opp x else x.

(** ** Lines used as examples *)

(** The defaults of the two thresholds, lines 35-36. *)
Definition default_min_Nc : double := 20%float.
Definition default_cv : double := 5.991%float.

(** A state before the first line: the arrays are not initialised, any
    content will do. *)
Definition first_line : carried :=
  mk_carried (fun _ => PrimFloat.zero) PrimFloat.zero.

Definition pop_A : population :=
  mk_population "A" "NA" 10 "25" "0.9" "0.1" "0.01" "0.0" "0.0".

Definition pop_T : population :=
  mk_population "T" "NA" 12 "22" "0.8" "0.2" "0.01" "0.0" "0.0".

(** Two populations, each fixed for an allele of its own. *)
Definition two_fixed_line : site_line :=
  mk_site_line "scaffold_1" 100 "A" [pop_A; pop_T].

(** A population with too few chromosomes, between the two. *)
Definition pop_low : population :=
  mk_population "G" "C" 7 "15" "0.7" "0.3" "0.01" "0.42" "9.5".

Definition low_Nc_line : site_line :=
  mk_site_line "scaffold_1" 101 "A" [pop_A; pop_low; pop_T].

(** A population whose second allele fails the test (1.0 is below 5.991),
    next to a population fixed for that allele. *)
Definition pop_AT : population :=
  mk_population "A" "T" 10 "25" "0.9" "0.1" "0.01" "0.18" "1.0".

Definition pop_T_fixed : population :=
  mk_population "T" "NA" 12 "22" "1.0" "0.0" "0.01" "0.0" "0.0".

Definition failed_test_line : site_line :=
  mk_site_line "scaffold_1" 102 "A" [pop_AT; pop_T_fixed].

(** A population whose two alleles are the same. *)
Definition pop_AA : population :=
  mk_population "A" "A" 9 "30" "0.6" "0.4" "0.01" "0.0" "7.2".

Definition same_alleles_line : site_line :=
  mk_site_line "scaffold_1" 103 "A" [pop_AA; pop_T].

(** One qualifying population alone, and one population below the
    threshold alone. *)
Definition single_line : site_line :=
  mk_site_line "scaffold_1" 104 "A" [pop_A].

Definition only_low_line : site_line :=
  mk_site_line "scaffold_1" 105 "G" [pop_low].

(** ** The options of the command line, lines 33-69

    [argv[1]], ..., [argv[argc - 1]] are a list of strings; [argv[argc]]
    is the null pointer, and so is a file name taken from it.  The
    conversion [%lf] of [sscanf] is a parameter: it gives a number or
    leaves the variable as it was. *)

Record settings := mk_settings {
  in_file_name : option string;
  out_file_name : option string;
  opt_min_Nc : double;
  opt_cv : double;
  print_help : bool;
  unknown_option : option string
}.

(** Lines 33-37. *)
Definition default_settings : settings :=
  mk_settings (Some "In_FPA.txt"%string) (Some "Out_FPA.txt"%string)
    default_min_Nc default_cv false None.

(** [argv[argz][0] == '-'], line 42. *)
Definition starts_with_dash (a : string) : bool :=
  match a with
  | String "-"%char _ => true
  | _ => false
  end.

(** [sscanf(..., "%lf", &x)], lines 50 and 52. *)
Definition scanned (r : option double) (x : double) : double :=
  match r with
  | Some y => y
  | None => x
  end.

(** The loop of lines 42-59.  [None]: [sscanf] was handed the null
    pointer [argv[argc]]. *)
Fixpoint read_options (sscanf_lf : string -> option double)
    (args : list string) (s : settings) : option settings :=
  match args with
  | [] => Some s
  | a :: rest =>
      if starts_with_dash a then
        if String.eqb a "-h" then
          read_options sscanf_lf rest
            (mk_settings (in_file_name s) (out_file_name s) (opt_min_Nc s)
               (opt_cv s) true (unknown_option s))
        else if String.eqb a "-in" then
          match rest with
          | v :: rest' =>
              read_options sscanf_lf rest'
                (mk_settings (Some v) (out_file_name s) (opt_min_Nc s)
                   (opt_cv s) (print_help s) (unknown_option s))
          | [] =>
              Some (mk_settings None (out_file_name s) (opt_min_Nc s)
                      (opt_cv s) (print_help s) (unknown_option s))
          end
        else if String.eqb a "-out" then
          match rest with
          | v :: rest' =>
              read_options sscanf_lf rest'
                (mk_settings (in_file_name s) (Some v) (opt_min_Nc s)
                   (opt_cv s) (print_help s) (unknown_option s))
          | [] =>
              Some (mk_settings (in_file_name s) None (opt_min_Nc s)
                      (opt_cv s) (print_help s) (unknown_option s))
          end
        else if String.eqb a "-min_Nc" then
          match rest with
          | v :: rest' =>
              read_options sscanf_lf rest'
                (mk_settings (in_file_name s) (out_file_name s)
                   (scanned (sscanf_lf v) (opt_min_Nc s))
                   (opt_cv s) (print_help s) (unknown_option s))
          | [] => None
          end
        else if String.eqb a "-cv" then
          match rest with
          | v :: rest' =>
              read_options sscanf_lf rest'
                (mk_settings (in_file_name s) (out_file_name s) (opt_min_Nc s)
                   (scanned (sscanf_lf v) (opt_cv s))
                   (print_help s) (unknown_option s))
          | [] => None
          end
        else
          Some (mk_settings (in_file_name s) (out_file_name s) (opt_min_Nc s)
                  (opt_cv s) true (Some a))
      else Some s
  end.

(** How the program starts, lines 39-69: it goes on with its settings, or
    prints the usage message (after the unknown option, if any) and leaves
    with status 1, or has used a null pointer. *)
Inductive startup :=
| Start (s : settings)
| Usage_exit_1 (unknown : option string)
| Null_pointer_read.

Definition read_settings (sscanf_lf : string -> option double)
    (args : list string) : startup :=
  match read_options sscanf_lf args default_settings with
  | None => Null_pointer_read
  | Some s => if print_help s then Usage_exit_1 (unknown_option s) else Start s
  end.

(** A run of options that the loop reads to its end: [-h], or one of the
    four others with the argument that follows it. *)
Inductive complete_options : list string -> Prop :=
| complete_nil : complete_options []
| complete_help rest :
    complete_options rest -> complete_options ("-h"%string :: rest)
| complete_valued flag v rest :
    In flag ["-in"%string; "-out"%string; "-min_Nc"%string; "-cv"%string] ->
    complete_options rest -> complete_options (flag :: v :: rest).

(** A stand-in for [%lf] on the examples: a plain decimal, or nothing. *)
Definition sscanf_decimal (v : string) : option double :=
  match v with
  | String c _ =>
      match digit_of c with
      | Some _ => Some (atof_decimal v)
      | None => None
      end
  | EmptyString => None
  end.

(** ** The header, lines 79-94

    An [istringstream] is what is left to read with its two state bits
    (the third, [badbit], is never set on a string).  [ss >> str] on a
    stream that is not good sets [failbit] and leaves [str] alone; on a
    good stream it skips the white space, and at the end of the stream
    sets [eofbit] and [failbit] and leaves [str] alone; otherwise it reads
    the characters up to the next white space into [str], and sets
    [eofbit] when it reads to the end. *)

Record istringstream := mk_istringstream {
  unread : string;
  eofbit : bool;
  failbit : bool
}.

(** [isspace] in the C locale: the space and the characters 9 to 13. *)
Definition isspace (c : ascii) : bool :=
  let n := nat_of_ascii c in
  Nat.eqb n 32 || (Nat.leb 9 n && Nat.leb n 13).

Fixpoint skip_spaces (s : string) : string :=
  match s with
  | EmptyString => EmptyString
  | String c s' => if isspace c then skip_spaces s' else s
  end.

Fixpoint read_word (s : string) : string * string :=
  match s with
  | EmptyString => (EmptyString, EmptyString)
  | String c s' =>
      if isspace c then (EmptyString, s)
      else let '(w, r) := read_word s' in (String c w, r)
  end.

Definition is_empty (s : string) : bool :=
  match s with
  | EmptyString => true
  | String _ _ => false
  end.

Definition good (ss : istringstream) : bool :=
  negb (eofbit ss) && negb (failbit ss).

(** [ss >> str] for a [string]. *)
Definition extract_string (ss : istringstream) (str : string)
    : istringstream * string :=
  if good ss then
    match skip_spaces (unread ss) with
    | EmptyString => (mk_istringstream EmptyString true true, str)
    | String c s' =>
        let '(w, r) := read_word (String c s') in
        (mk_istringstream r (is_empty r) false, w)
    end
  else (mk_istringstream (unread ss) (eofbit ss) true, str).

(** [istringstream ss(line)], line 83. *)
Definition open_line (line : string) : istringstream :=
  mk_istringstream line false false.

(** The loop of lines 87-93, with a bound on its iterations: [None] when
    the bound is reached before the loop ends. *)
Fixpoint read_labels (fuel : nat) (ss : istringstream) (str : string)
    (pop_info : list string) : option (list string) :=
  match fuel with
  | O => None
  | S fuel' =>
      let '(ss', str') := extract_string ss str in
      let pop_info' := pop_info ++ [str'] in
      if eofbit ss' then Some pop_info'
      else read_labels fuel' ss' str' pop_info'
  end.

(** Lines 83-93: the three leading labels, then the labels of the
    populations. *)
Definition header_labels (fuel : nat) (line : string) : option (list string) :=
  let '(ss1, h_scaf) := extract_string (open_line line) EmptyString in
  let '(ss2, h_site) := extract_string ss1 EmptyString in
  let '(ss3, h_ref_nuc) := extract_string ss2 EmptyString in
  read_labels fuel ss3 EmptyString [].

(** Line 94: [(int)pop_info.size()/9]. *)
Definition num_pops_of (pop_info : list string) : Z :=
  Z.quot (int_wrap (Z.of_nat (List.length pop_info))) 9.

Definition header_num_pops (line : string) : option Z :=
  option_map num_pops_of (header_labels (S (String.length line)) line).

(** *** Lines as words and white space

    A way to write a line down: each word with the white space before it,
    then the white space that ends the line. *)

Fixpoint all_space (s : string) : bool :=
  match s with
  | EmptyString => true
  | String c s' => isspace c && all_space s'
  end.

Fixpoint no_space (s : string) : bool :=
  match s with
  | EmptyString => true
  | String c s' => negb (isspace c) && no_space s'
  end.

Definition is_word (w : string) : bool := negb (is_empty w) && no_space w.

Definition is_gap (g : string) : bool := negb (is_empty g) && all_space g.

Fixpoint spell (items : list (string * string)) (trail : string) : string :=
  match items with
  | [] => trail
  | (g, w) :: r => (g ++ w ++ spell r trail)%string
  end.

(** Words after the first: each comes after some white space. *)
Definition gapped (items : list (string * string)) : bool :=
  forallb (fun gw => is_gap (fst gw) && is_word (snd gw)) items.

(** The first word may start the line. *)
Definition well_spelt (items : list (string * string)) : bool :=
  match items with
  | [] => true
  | (g, w) :: r => all_space g && is_word w && gapped r
  end.

(** The labels that follow, once more with the last of them when white
    space ends the line. *)
Definition with_repeat (ws : list string) (trail : string) : list string :=
  if is_empty trail then ws else ws ++ [last ws EmptyString].

(** What is left of a line after a word: nothing, or white space first. *)
Definition blank_start (x : string) : bool :=
  match x with
  | EmptyString => true
  | String c _ => isspace c
  end.

(** The labels the header gives for a line written that way. *)
Definition labels_of (items : list (string * string)) (trail : string) : list string :=
  match skipn 3 (map snd items) with
  | [] => [EmptyString]
  | w :: ws =>
      if is_empty trail then w :: ws
      else (w :: ws) ++ [last (w :: ws) EmptyString]
  end.

(** *** Examples of headers and of lines *)

(** A header for one population, and a carriage return to end it. *)
Definition header_items : list (string * string) :=
  [(""%string, "scaffold"%string); (" "%string, "site"%string);
   (" "%string, "ref_nuc"%string); (" "%string, "n1_1"%string);
   (" "%string, "n2_1"%string); (" "%string, "cov_1"%string);
   (" "%string, "Nc_1"%string); (" "%string, "best_p_1"%string);
   (" "%string, "best_q_1"%string); (" "%string, "best_error_1"%string);
   (" "%string, "best_H_1"%string); (" "%string, "pol_llstat_1"%string)].

Definition carriage_return : string := String (ascii_of_nat 13) EmptyString.

(** [atof] reads the token [nan] as NaN; the stand-in that does so. *)
Definition atof_nan (s : string) : double :=
  if String.eqb s "nan" then PrimFloat.nan else atof_decimal s.

(** A population whose frequency is the token [nan], before a population
    with a frequency, and the same two the other way round. *)
Definition pop_A_nan : population :=
  mk_population "A" "NA" 10 "25" "nan" "0.1" "0.01" "0.0" "0.0".

Definition nan_first_line : site_line :=
  mk_site_line "scaffold_1" 106 "A" [pop_A_nan; pop_T].

Definition nan_last_line : site_line :=
  mk_site_line "scaffold_1" 106 "A" [pop_T; pop_A_nan].

(** The variables before the first line of an input for two populations
    (the strings are empty, the integers are not initialised: any value
    will do), and the reads of the line [two_fixed_line]. *)
Definition variables_for_two : variables :=
  mk_variables "" 0 "" ""
    [mk_population "" "" 0 "" "" "" "" "" "";
     mk_population "" "" 0 "" "" "" "" "" ""]
    first_line.

Definition read_two_fixed : read_line :=
  mk_read_line (Some "scaffold_1"%string) (Some 100) (Some "A"%string)
    [mk_read_population (Some "A"%string) (Some "NA"%string) (Some 10)
       (Some "25"%string) (Some "0.9"%string) (Some "0.1"%string)
       (Some "0.01"%string) (Some "0.0"%string) (Some "0.0"%string);
     mk_read_population (Some "T"%string) (Some "NA"%string) (Some 12)
       (Some "22"%string) (Some "0.8"%string) (Some "0.2"%string)
       (Some "0.01"%string) (Some "0.0"%string) (Some "0.0"%string)].

(** The two populations of [two_fixed_line], the other way round. *)
Definition swapped_line : site_line :=
  mk_site_line "scaffold_1" 100 "A" [pop_T; pop_A].

Section Site.

#[local] Set Default Proof Using "Type".

(** The two thresholds of the command line. *)
Variables min_Nc cv : double.

(** The C library. *)
Variable atof : string -> double.
Variable pow : double -> double -> double.
Variable log10 : double -> double.

(** ** First loop: one population, lines 144-167 *)

Definition scan_pop (pg : nat) (p : population) (st : scan) : scan :=
  let cov := int_wrap (tot_cov st + pop_cov p) in
  if String.eqb (n1 p) NA then
    mk_scan cov (ne_pops st) (sum_Nc st) (alleles st) (Nc st)
  else
    let nc := atof (s_Nc p) in
    let arr := upd (Nc st) pg nc in
    if PrimFloat.leb min_Nc nc then
      let als := add_allele (alleles st) (n1 p) in
      let als' :=
        if String.eqb (n2 p) NA then als
        else if PrimFloat.ltb cv (atof (s_pol_llstat p))
             then add_allele als (n2 p)
             else als in
      mk_scan cov (ne_pops st + 1) (PrimFloat.add (sum_Nc st) nc) als' arr
    else
      mk_scan cov (ne_pops st) (sum_Nc st) (alleles st) arr.

(** [for (pg = ...; pg <= num_pops; pg++)], lines 143-168. *)
Fixpoint read_pops (pg : nat) (ps : list population) (st : scan) : scan :=
  match ps with
  | [] => st
  | p :: ps' => read_pops (S pg) ps' (scan_pop pg p st)
  end.

(** Lines 138-141: the counters are reset, the array [Nc] is not. *)
Definition scan_init (arr : nat -> double) : scan :=
  mk_scan 0 0 PrimFloat.zero [] arr.

Definition scan_line (arr : nat -> double) (l : site_line) : scan :=
  read_pops 1 (populations l) (scan_init arr).

(** ** Second loop: one allele over the populations, lines 185-203 *)

Definition tally_pop (arr : nat -> double) (a : string)
    (pg : nat) (p : population) (t : tally) : tally :=
  if negb (String.eqb (n1 p) NA) && PrimFloat.leb min_Nc (arr pg) then
    if String.eqb (n1 p) a then
      mk_tally (id_pop_a t ++ [pg])
               (freq_a t ++ [atof (s_best_p p)])
               (PrimFloat.add (sum_freq_a t) (atof (s_best_p p)))
    else if String.eqb (n2 p) a then
      mk_tally (id_pop_a t ++ [pg])
               (freq_a t ++ [atof (s_best_q p)])
               (PrimFloat.add (sum_freq_a t) (atof (s_best_q p)))
    else t
  else t.

Fixpoint tally_pops (arr : nat -> double) (a : string)
    (pg : nat) (ps : list population) (t : tally) : tally :=
  match ps with
  | [] => t
  | p :: ps' => tally_pops arr a (S pg) ps' (tally_pop arr a pg p t)
  end.

(** Lines 185-188. *)
Definition tally_init : tally := mk_tally [] [] PrimFloat.zero.

Definition tally_allele (st : scan) (ps : list population) (a : string) : tally :=
  tally_pops (Nc st) a 1 ps tally_init.

(** Line 202. *)
Definition num_pops_a (st : scan) (ps : list population) (a : string) : Z :=
  Z.of_nat (List.length (id_pop_a (tally_allele st ps a))).

(** Line 203. *)
Definition mean_freq_a (st : scan) (ps : list population) (a : string) : double :=
  PrimFloat.div (sum_freq_a (tally_allele st ps a)) (double_of_int (ne_pops st)).

(** Lines 216-219. *)
Definition log_prob (st : scan) (mean : double) (focal : nat) : double :=
  let Nc_focal := Nc st focal in
  let Nc_other := PrimFloat.sub (sum_Nc st) Nc_focal in
  let t_prob_pa :=
    PrimFloat.mul
      (PrimFloat.sub PrimFloat.one (pow (PrimFloat.sub PrimFloat.one mean) Nc_focal))
      (pow (PrimFloat.sub PrimFloat.one mean) Nc_other) in
  log10 t_prob_pa.

(** Lines 212-219: what is pushed for a private allele.  [id_pop_a.at(0)]
    and [freq_a.at(0)] are read only when the vectors have one element. *)
Definition private_entry_of (st : scan) (ps : list population) (a : string) : private_entry :=
  let t := tally_allele st ps a in
  let mean := mean_freq_a st ps a in
  mk_private_entry a (hd 0%nat (id_pop_a t)) (hd PrimFloat.zero (freq_a t))
    mean (log_prob st mean (hd 0%nat (id_pop_a t))).

(** Line 211. *)
Definition private_test (st : scan) (ps : list population) (a : string) : bool :=
  (2 <=? ne_pops st) && (num_pops_a st ps a =? 1).

(** ** The body of the loop over the alleles, lines 185-220 *)
Definition examine_allele (st : scan) (ps : list population)
    (ag : nat) (a : string) (r : report) : report :=
  let mean := mean_freq_a st ps a in
  let maf :=
    if Nat.eqb ag 0 then mean
    else if PrimFloat.ltb mean (maf_total r) then mean else maf_total r in
  let entries :=
    if private_test st ps a
    then private_entries r ++ [private_entry_of st ps a]
    else private_entries r in
  mk_report maf entries.

(** [for (ag = 0; ag < num_alleles; ag++)], lines 184-221. *)
Fixpoint examine_alleles (st : scan) (ps : list population)
    (ag : nat) (als : list string) (r : report) : report :=
  match als with
  | [] => r
  | a :: als' => examine_alleles st ps (S ag) als' (examine_allele st ps ag a r)
  end.

(** Lines 179-183: the vectors on private alleles are cleared, [maf_total]
    keeps the value the previous line left. *)
Definition report_line (maf : double) (st : scan) (l : site_line) : report :=
  examine_alleles st (populations l) 0 (alleles st) (mk_report maf []).

(** ** Printing, lines 223-229 *)

Definition print_entry (l : site_line) (st : scan) (r : report)
    (e : private_entry) : out_row :=
  mk_out_row (scaffold l) (site l) (ref_nuc l) (tot_cov st) (ne_pops st)
    (Z.of_nat (List.length (alleles st)))
    (private_allele e) (id_pop_pa e) (focal_paf e) (total_paf e)
    (log_prob_pa e) (maf_total r).

(** ** One iteration of the [while] loop, lines 136-230 *)

Definition process_line (c : carried) (l : site_line) : list out_row * carried :=
  let st := scan_line (Nc_prev c) l in
  let r := report_line (maf_prev c) st l in
  (map (print_entry l st r) (private_entries r), mk_carried (Nc st) (maf_total r)).

Definition rows_of_line (c : carried) (l : site_line) : list out_row :=
  fst (process_line c l).

(** One iteration of the loop from the variables the previous one left:
    the reads, then the analysis of what the variables hold. *)
Definition run_line (v : variables) (g : read_line) : list out_row * variables :=
  let v' := read_variables v g in
  let '(rows, c') := process_line (v_carried v') (line_of v') in
  (rows,
   mk_variables (v_scaffold v') (v_site v') (v_ref_nuc v') (v_best_error v')
     (v_cells v') c').

(** The whole loop over the lines of the input, lines 136-230. *)
Fixpoint run_lines (v : variables) (gs : list read_line) : list out_row :=
  match gs with
  | [] => []
  | g :: gs' =>
      let '(rows, v') := run_line v g in
      rows ++ run_lines v' gs'
  end.

(** ** The vocabulary of the specification

    The definitions below do not come from the code: they say, on the
    tokens of a line, what the specification calls a qualifying
    population, a carrier, the segregating alleles and the mean frequency.
    The theorems compare them with what the loops compute. *)

(** A population qualifies when it has data and enough chromosomes. *)
Definition qualifies (p : population) : bool :=
  negb (String.eqb (n1 p) NA) && PrimFloat.leb min_Nc (atof (s_Nc p)).

(** The significance gate on the second allele. *)
Definition admits_allele2 (p : population) : bool :=
  negb (String.eqb (n2 p) NA) && PrimFloat.ltb cv (atof (s_pol_llstat p)).

(** The alleles a population offers to the site, in the order it does. *)
Definition offered (p : population) : list string :=
  if qualifies p then n1 p :: (if admits_allele2 p then [n2 p] else [])
  else [].

Definition segregating (ps : list population) : list string :=
  fold_left add_allele (flat_map offered ps) [].

(** The populations with their identifiers [pg], [pg + 1], ... *)
Definition numbered_from (pg : nat) (ps : list population) : list (nat * population) :=
  combine (seq pg (List.length ps)) ps.

Definition numbered (ps : list population) : list (nat * population) :=
  numbered_from 1 ps.

Definition qualifying (ps : list population) : list population :=
  filter qualifies ps.

Definition count_qualifying (ps : list population) : Z :=
  Z.of_nat (List.length (qualifying ps)).

(** A population carries an allele when one of its two alleles is it. *)
Definition carries (a : string) (p : population) : bool :=
  String.eqb (n1 p) a || String.eqb (n2 p) a.

Definition carrier (a : string) (ip : nat * population) : bool :=
  qualifies (snd ip) && carries a (snd ip).

Definition carriers (a : string) (ps : list population) : list (nat * population) :=
  filter (carrier a) (numbered ps).

(** The frequency a carrier contributes: that of its first allele when
    it is the allele, that of its second otherwise. *)
Definition recorded_freq (a : string) (p : population) : double :=
  if String.eqb (n1 p) a then atof (s_best_p p) else atof (s_best_q p).

Definition recorded_freqs (a : string) (ps : list population) : list double :=
  map (fun ip => recorded_freq a (snd ip)) (carriers a ps).

(** A sum of doubles, taken from left to right. *)
Definition sum_from (x0 : double) (xs : list double) : double :=
  fold_left PrimFloat.add xs x0.

Definition total_Nc (ps : list population) : double :=
  sum_from PrimFloat.zero (map (fun p => atof (s_Nc p)) (qualifying ps)).

Definition total_coverage (ps : list population) : Z :=
  fold_left (fun acc p => int_wrap (acc + pop_cov p)) ps 0.

Definition mean_frequency (a : string) (ps : list population) : double :=
  PrimFloat.div (sum_from PrimFloat.zero (recorded_freqs a ps))
                (double_of_int (count_qualifying ps)).

Definition is_private (a : string) (ps : list population) : bool :=
  (2 <=? count_qualifying ps) && Nat.eqb (List.length (carriers a ps)) 1.

Definition detection_log_prob (p Nc_focal Nc_other : double) : double :=
  log10 (PrimFloat.mul
           (PrimFloat.sub PrimFloat.one (pow (PrimFloat.sub PrimFloat.one p) Nc_focal))
           (pow (PrimFloat.sub PrimFloat.one p) Nc_other)).

(** Lines 204-210 on a list of means: the first one, then every one that
    is smaller than the minimum so far. *)
Definition running_min (m0 : double) (ms : list double) : double :=
  fold_left (fun acc m => if PrimFloat.ltb m acc then m else acc) ms m0.

(** The comparisons of the code on the results of [SFcompare]. *)
Definition cmp_le (c : option comparison) : bool :=
  match c with
  | Some Lt | Some Eq => true
  | _ => false
  end.

(** * Properties *)

(** ** The order of the doubles *)

Lemma SFcompare_antisym (x y : spec_float) :
  SFcompare y x = option_map CompOpp (SFcompare x y).
Proof.
  destruct x as [s1|s1| |s1 m1 e1], y as [s2|s2| |s2 m2 e2]; simpl;
    try destruct s1; try destruct s2; try reflexivity;
    rewrite (Z.compare_antisym e1 e2);
    destruct (e1 ?= e2)%Z; simpl; try reflexivity;
    change (PosDef.Pos.compare_cont Eq m1 m2) with (Pos.compare m1 m2);
    change (PosDef.Pos.compare_cont Eq m2 m1) with (Pos.compare m2 m1);
    rewrite (Pos.compare_antisym m1 m2); destruct (m1 ?= m2)%positive; reflexivity.
Qed.

(** Three floats by cases: the class and the sign of each, then the
    exponents and the mantissas of the finite ones. *)
Ltac compare_three x y z :=
  destruct x as [[]|[]| |[] ? ?], y as [[]|[]| |[] ? ?], z as [[]|[]| |[] ? ?];
  simpl; try discriminate; try reflexivity;
  change (PosDef.Pos.compare_cont Eq) with Pos.compare;
  repeat match goal with
  | |- context [ (?a ?= ?b)%Z ] => destruct (Z.compare_spec a b)
  | |- context [ (?a ?= ?b)%positive ] => destruct (Pos.compare_spec a b)
  end; simpl; try discriminate; try reflexivity; intros; subst; try lia.

Lemma SFcompare_le_lt_trans (x y z : spec_float) :
  cmp_le (SFcompare x y) = true -> SFcompare y z = Some Lt ->
  SFcompare x z = Some Lt.
Proof. compare_three x y z. Qed.

Lemma SFcompare_lt_le_trans (x y z : spec_float) :
  SFcompare x y = Some Lt -> cmp_le (SFcompare y z) = true ->
  SFcompare x z = Some Lt.
Proof. compare_three x y z. Qed.

Lemma SFcompare_none (x y : spec_float) :
  SFcompare x y = None -> x = S754_nan \/ y = S754_nan.
Proof.
  destruct x, y; simpl; intros H; try discriminate; auto.
Qed.

Lemma ltb_compare (x y : double) :
  PrimFloat.ltb x y = true <-> SFcompare (Prim2SF x) (Prim2SF y) = Some Lt.
Proof.
  rewrite FloatAxioms.ltb_spec. unfold SFltb.
  destruct (SFcompare (Prim2SF x) (Prim2SF y)) as [[]|]; split; congruence.
Qed.

Lemma leb_compare (x y : double) :
  PrimFloat.leb x y = cmp_le (SFcompare (Prim2SF x) (Prim2SF y)).
Proof.
  rewrite FloatAxioms.leb_spec. unfold SFleb, cmp_le.
  destruct (SFcompare (Prim2SF x) (Prim2SF y)) as [[]|]; reflexivity.
Qed.

(** [x < y] excludes [x >= y]. *)
Lemma ltb_not_geb (x y : double) :
  PrimFloat.ltb x y = true -> PrimFloat.leb y x = false.
Proof.
  rewrite ltb_compare, leb_compare, (SFcompare_antisym (Prim2SF x)).
  intros ->. reflexivity.
Qed.

(** [x == y] excludes [y > x]. *)
Lemma eqb_not_gtb (x y : double) :
  PrimFloat.eqb x y = true -> PrimFloat.ltb y x = false.
Proof.
  rewrite FloatAxioms.eqb_spec, FloatAxioms.ltb_spec. unfold SFeqb, SFltb.
  rewrite (SFcompare_antisym (Prim2SF x)).
  destruct (SFcompare (Prim2SF x) (Prim2SF y)) as [[]|]; simpl; congruence.
Qed.

Lemma ltb_trans (x y z : double) :
  PrimFloat.ltb x y = true -> PrimFloat.ltb y z = true -> PrimFloat.ltb x z = true.
Proof.
  rewrite !ltb_compare. intros Hxy Hyz.
  apply SFcompare_le_lt_trans with (y := Prim2SF y); [rewrite Hxy; reflexivity | exact Hyz].
Qed.

Lemma leb_ltb_trans (x y z : double) :
  PrimFloat.leb x y = true -> PrimFloat.ltb y z = true -> PrimFloat.ltb x z = true.
Proof.
  rewrite leb_compare, !ltb_compare. apply SFcompare_le_lt_trans.
Qed.

Lemma ltb_leb_trans (x y z : double) :
  PrimFloat.ltb x y = true -> PrimFloat.leb y z = true -> PrimFloat.ltb x z = true.
Proof.
  rewrite leb_compare, !ltb_compare. apply SFcompare_lt_le_trans.
Qed.

Lemma ltb_irrefl (x : double) : PrimFloat.ltb x x = false.
Proof.
  destruct (PrimFloat.ltb x x) eqn:E; [|reflexivity].
  pose proof (ltb_not_geb x x E) as H.
  rewrite leb_compare in H. apply ltb_compare in E. rewrite E in H. discriminate.
Qed.

(** Two doubles that are not NaN are comparable. *)
Lemma not_ltb_geb (x y : double) :
  PrimFloat.is_nan x = false -> PrimFloat.is_nan y = false ->
  PrimFloat.ltb x y = false -> PrimFloat.leb y x = true.
Proof.
  unfold PrimFloat.is_nan.
  rewrite !negb_false_iff, !FloatAxioms.eqb_spec, FloatAxioms.ltb_spec, leb_compare.
  unfold SFeqb, SFltb. rewrite (SFcompare_antisym (Prim2SF x) (Prim2SF y)).
  intros Hx Hy.
  destruct (SFcompare (Prim2SF x) (Prim2SF y)) as [[]|] eqn:E; simpl; try congruence.
  intros _. apply SFcompare_none in E. destruct E as [E|E]; rewrite E in *; discriminate.
Qed.

(** ** The vector of alleles *)

Lemma has_allele_In (als : list string) (a : string) :
  has_allele als a = true <-> In a als.
Proof.
  unfold has_allele. rewrite existsb_exists. split.
  - intros [b [Hb E]]. apply String.eqb_eq in E. subst. exact Hb.
  - intros H. exists a. split; [exact H | apply String.eqb_refl].
Qed.

Lemma In_add_allele (als : list string) (a b : string) :
  In b (add_allele als a) <-> In b als \/ b = a.
Proof.
  unfold add_allele. destruct (has_allele als a) eqn:E.
  - apply has_allele_In in E. split; [auto | intros [H | ->]; assumption].
  - rewrite in_app_iff. simpl. split.
    + intros [H | [H | []]]; [left; exact H | right; symmetry; exact H].
    + intros [H | H]; [left; exact H | right; left; symmetry; exact H].
Qed.

Lemma NoDup_add_allele (als : list string) (a : string) :
  NoDup als -> NoDup (add_allele als a).
Proof.
  intros H. unfold add_allele. destruct (has_allele als a) eqn:E; [exact H|].
  assert (Hn : ~ In a als).
  { intros Hin. apply has_allele_In in Hin. congruence. }
  clear E. induction H as [|x xs Hx Hxs IH]; simpl.
  - constructor; [intros [] | constructor].
  - constructor.
    + rewrite in_app_iff. simpl. intros [Hin | [-> | []]]; [auto|].
      apply Hn. left. reflexivity.
    + apply IH. intros Hin. apply Hn. right. exact Hin.
Qed.

Lemma In_fold_add_allele (xs als : list string) (b : string) :
  In b (fold_left add_allele xs als) <-> In b als \/ In b xs.
Proof.
  revert als. induction xs as [|x xs IH]; intros als; simpl.
  - split; [left; assumption | intros [H | []]; exact H].
  - rewrite IH, In_add_allele. split.
    + intros [[H | H] | H]; auto.
    + intros [H | [H | H]]; auto.
Qed.

Lemma NoDup_fold_add_allele (xs als : list string) :
  NoDup als -> NoDup (fold_left add_allele xs als).
Proof.
  revert als. induction xs as [|x xs IH]; intros als H; simpl; [exact H|].
  apply IH, NoDup_add_allele, H.
Qed.

(** ** The first loop *)

(** One step of the first loop, on the vocabulary of the specification. *)
Lemma scan_pop_eq (pg : nat) (p : population) (st : scan) :
  scan_pop pg p st =
  mk_scan (int_wrap (tot_cov st + pop_cov p))
    (if qualifies p then ne_pops st + 1 else ne_pops st)
    (if qualifies p then PrimFloat.add (sum_Nc st) (atof (s_Nc p)) else sum_Nc st)
    (fold_left add_allele (offered p) (alleles st))
    (if String.eqb (n1 p) NA then Nc st else upd (Nc st) pg (atof (s_Nc p))).
Proof.
  unfold scan_pop, offered, qualifies, admits_allele2.
  destruct (String.eqb (n1 p) NA); simpl; [reflexivity|].
  destruct (PrimFloat.leb min_Nc (atof (s_Nc p))); simpl; [|reflexivity].
  destruct (String.eqb (n2 p) NA); simpl; [reflexivity|].
  destruct (PrimFloat.ltb cv (atof (s_pol_llstat p))); reflexivity.
Qed.

Lemma read_pops_alleles (ps : list population) (pg : nat) (st : scan) :
  alleles (read_pops pg ps st) =
  fold_left add_allele (flat_map offered ps) (alleles st).
Proof.
  revert pg st. induction ps as [|p ps IH]; intros pg st; simpl; [reflexivity|].
  rewrite IH, scan_pop_eq, fold_left_app. reflexivity.
Qed.

Lemma read_pops_ne_pops (ps : list population) (pg : nat) (st : scan) :
  ne_pops (read_pops pg ps st) = ne_pops st + count_qualifying ps.
Proof.
  unfold count_qualifying, qualifying.
  revert pg st. induction ps as [|p ps IH]; intros pg st; simpl; [lia|].
  rewrite IH, scan_pop_eq. simpl. destruct (qualifies p); simpl; lia.
Qed.

Lemma read_pops_sum_Nc (ps : list population) (pg : nat) (st : scan) :
  sum_Nc (read_pops pg ps st) =
  sum_from (sum_Nc st) (map (fun p => atof (s_Nc p)) (qualifying ps)).
Proof.
  unfold qualifying, sum_from.
  revert pg st. induction ps as [|p ps IH]; intros pg st; simpl; [reflexivity|].
  rewrite IH, scan_pop_eq. simpl. destruct (qualifies p); reflexivity.
Qed.

Lemma read_pops_tot_cov (ps : list population) (pg : nat) (st : scan) :
  tot_cov (read_pops pg ps st) =
  fold_left (fun acc p => int_wrap (acc + pop_cov p)) ps (tot_cov st).
Proof.
  revert pg st. induction ps as [|p ps IH]; intros pg st; simpl; [reflexivity|].
  rewrite IH, scan_pop_eq. reflexivity.
Qed.

(** The loop leaves the cells below its counter alone. *)
Lemma read_pops_Nc_below (ps : list population) (pg : nat) (st : scan) (i : nat) :
  (i < pg)%nat -> Nc (read_pops pg ps st) i = Nc st i.
Proof.
  revert pg st. induction ps as [|p ps IH]; intros pg st Hi; simpl; [reflexivity|].
  rewrite IH by lia. rewrite scan_pop_eq. simpl.
  destruct (String.eqb (n1 p) NA); [reflexivity|].
  unfold upd. destruct (Nat.eqb_spec i pg); [lia | reflexivity].
Qed.

(** After the loop, the cell of a population with data holds its [Nc],
    whatever the previous lines left there. *)
Lemma read_pops_Nc_at (ps : list population) (pg : nat) (st : scan)
    (i : nat) (p : population) :
  In (i, p) (numbered_from pg ps) -> String.eqb (n1 p) NA = false ->
  Nc (read_pops pg ps st) i = atof (s_Nc p).
Proof.
  unfold numbered_from.
  revert pg st. induction ps as [|q ps IH]; intros pg st Hin Hna; simpl in *; [contradiction|].
  destruct Hin as [E | Hin].
  - inversion E; subst. rewrite read_pops_Nc_below by lia.
    rewrite scan_pop_eq. simpl. rewrite Hna. unfold upd.
    rewrite Nat.eqb_refl. reflexivity.
  - apply IH; assumption.
Qed.

(** ** The second loop *)

Lemma tally_pop_eq (arr : nat -> double) (a : string) (pg : nat)
    (p : population) (t : tally) :
  (String.eqb (n1 p) NA = false -> arr pg = atof (s_Nc p)) ->
  tally_pop arr a pg p t =
  if carrier a (pg, p) then
    mk_tally (id_pop_a t ++ [pg]) (freq_a t ++ [recorded_freq a p])
             (PrimFloat.add (sum_freq_a t) (recorded_freq a p))
  else t.
Proof.
  intros Harr. unfold tally_pop, carrier, qualifies, carries, recorded_freq. simpl.
  destruct (String.eqb (n1 p) NA); simpl; [reflexivity|].
  rewrite Harr by reflexivity.
  destruct (PrimFloat.leb min_Nc (atof (s_Nc p))); simpl; [|reflexivity].
  destruct (String.eqb (n1 p) a); simpl; [reflexivity|].
  destruct (String.eqb (n2 p) a); reflexivity.
Qed.

Lemma tally_pops_eq (arr : nat -> double) (a : string) (ps : list population)
    (pg : nat) (t : tally) :
  (forall i p, In (i, p) (numbered_from pg ps) ->
               String.eqb (n1 p) NA = false -> arr i = atof (s_Nc p)) ->
  tally_pops arr a pg ps t =
  let cs := filter (carrier a) (numbered_from pg ps) in
  mk_tally (id_pop_a t ++ map fst cs)
           (freq_a t ++ map (fun ip => recorded_freq a (snd ip)) cs)
           (sum_from (sum_freq_a t) (map (fun ip => recorded_freq a (snd ip)) cs)).
Proof.
  unfold numbered_from, sum_from.
  revert pg t. induction ps as [|p ps IH]; intros pg t Harr; simpl.
  - rewrite !app_nil_r. destruct t; reflexivity.
  - rewrite IH by (intros i q Hin; apply Harr; right; exact Hin).
    rewrite tally_pop_eq by (apply Harr; left; reflexivity).
    destruct (carrier a (pg, p)); simpl; [|reflexivity].
    rewrite <- !app_assoc. reflexivity.
Qed.

(** ** The loops on a whole line *)

Lemma scan_line_alleles (arr : nat -> double) (l : site_line) :
  alleles (scan_line arr l) = segregating (populations l).
Proof. unfold scan_line, segregating. rewrite read_pops_alleles. reflexivity. Qed.

Lemma scan_line_ne_pops (arr : nat -> double) (l : site_line) :
  ne_pops (scan_line arr l) = count_qualifying (populations l).
Proof. unfold scan_line. rewrite read_pops_ne_pops. reflexivity. Qed.

Lemma scan_line_sum_Nc (arr : nat -> double) (l : site_line) :
  sum_Nc (scan_line arr l) = total_Nc (populations l).
Proof. unfold scan_line. rewrite read_pops_sum_Nc. reflexivity. Qed.

Lemma scan_line_tot_cov (arr : nat -> double) (l : site_line) :
  tot_cov (scan_line arr l) = total_coverage (populations l).
Proof. unfold scan_line. rewrite read_pops_tot_cov. reflexivity. Qed.

Lemma scan_line_Nc (arr : nat -> double) (l : site_line) (i : nat) (p : population) :
  In (i, p) (numbered (populations l)) -> String.eqb (n1 p) NA = false ->
  Nc (scan_line arr l) i = atof (s_Nc p).
Proof. apply read_pops_Nc_at. Qed.

Lemma tally_allele_eq (arr : nat -> double) (l : site_line) (a : string) :
  tally_allele (scan_line arr l) (populations l) a =
  mk_tally (map fst (carriers a (populations l)))
           (recorded_freqs a (populations l))
           (sum_from PrimFloat.zero (recorded_freqs a (populations l))).
Proof.
  unfold tally_allele. rewrite tally_pops_eq.
  - reflexivity.
  - intros i p. apply scan_line_Nc.
Qed.

Lemma num_pops_a_eq (arr : nat -> double) (l : site_line) (a : string) :
  num_pops_a (scan_line arr l) (populations l) a =
  Z.of_nat (List.length (carriers a (populations l))).
Proof.
  unfold num_pops_a. rewrite tally_allele_eq. simpl. rewrite length_map. reflexivity.
Qed.

Lemma mean_freq_a_eq (arr : nat -> double) (l : site_line) (a : string) :
  mean_freq_a (scan_line arr l) (populations l) a = mean_frequency a (populations l).
Proof.
  unfold mean_freq_a, mean_frequency.
  rewrite tally_allele_eq, scan_line_ne_pops. reflexivity.
Qed.

Lemma private_test_eq (arr : nat -> double) (l : site_line) (a : string) :
  private_test (scan_line arr l) (populations l) a = is_private a (populations l).
Proof.
  unfold private_test, is_private. rewrite scan_line_ne_pops, num_pops_a_eq.
  f_equal. destruct (Nat.eqb_spec (List.length (carriers a (populations l))) 1);
    [apply Z.eqb_eq | apply Z.eqb_neq]; lia.
Qed.

(** ** The loop over the alleles *)

Lemma examine_alleles_entries (st : scan) (ps : list population)
    (als : list string) (ag : nat) (r : report) :
  private_entries (examine_alleles st ps ag als r) =
  private_entries r ++ map (private_entry_of st ps) (filter (private_test st ps) als).
Proof.
  revert ag r. induction als as [|a als IH]; intros ag r; simpl.
  - rewrite app_nil_r. reflexivity.
  - rewrite IH. unfold examine_allele. simpl.
    destruct (private_test st ps a); simpl; [|reflexivity].
    rewrite <- app_assoc. reflexivity.
Qed.

Lemma examine_alleles_maf_later (st : scan) (ps : list population)
    (als : list string) (ag : nat) (r : report) :
  maf_total (examine_alleles st ps (S ag) als r) =
  running_min (maf_total r) (map (mean_freq_a st ps) als).
Proof.
  unfold running_min.
  revert ag r. induction als as [|a als IH]; intros ag r; simpl; [reflexivity|].
  rewrite IH. reflexivity.
Qed.

Lemma examine_alleles_maf (st : scan) (ps : list population)
    (a : string) (als : list string) (r : report) :
  maf_total (examine_alleles st ps 0 (a :: als) r) =
  running_min (mean_freq_a st ps a) (map (mean_freq_a st ps) als).
Proof. simpl. rewrite examine_alleles_maf_later. reflexivity. Qed.

(** ** The running minimum *)

Lemma running_min_In (ms : list double) (m0 : double) :
  In (running_min m0 ms) (m0 :: ms).
Proof.
  unfold running_min.
  revert m0. induction ms as [|m ms IH]; intros m0; simpl; [left; reflexivity|].
  destruct (PrimFloat.ltb m m0).
  - right. apply IH.
  - destruct (IH m0) as [E | Hin]; [left; exact E | right; right; exact Hin].
Qed.

(** What is not below the minimum so far is not below the final one. *)
Lemma running_min_keeps (ms : list double) (m0 x : double) :
  PrimFloat.ltb x m0 = false -> PrimFloat.ltb x (running_min m0 ms) = false.
Proof.
  unfold running_min.
  revert m0. induction ms as [|m ms IH]; intros m0 Hx; simpl; [exact Hx|].
  apply IH. destruct (PrimFloat.ltb m m0) eqn:E; [|exact Hx].
  destruct (PrimFloat.ltb x m) eqn:E'; [|reflexivity].
  rewrite (ltb_trans x m m0 E' E) in Hx. discriminate.
Qed.

Lemma running_min_lower (ms : list double) (m0 m : double) :
  In m (m0 :: ms) -> PrimFloat.ltb m (running_min m0 ms) = false.
Proof.
  revert m0. induction ms as [|m1 ms IH]; intros m0 Hin.
  - destruct Hin as [<- | []]. apply ltb_irrefl.
  - change (running_min m0 (m1 :: ms))
      with (running_min (if PrimFloat.ltb m1 m0 then m1 else m0) ms).
    destruct Hin as [<- | [<- | Hin]].
    + apply running_min_keeps.
      destruct (PrimFloat.ltb m1 m0) eqn:E; [|apply ltb_irrefl].
      destruct (PrimFloat.ltb m0 m1) eqn:E'; [|reflexivity].
      pose proof (ltb_trans _ _ _ E' E) as H.
      rewrite ltb_irrefl in H. discriminate.
    + apply running_min_keeps.
      destruct (PrimFloat.ltb m1 m0) eqn:E; [apply ltb_irrefl | exact E].
    + apply IH. right. exact Hin.
Qed.

(** The final minimum sits at an index before which every mean is
    strictly larger, when no mean is NaN. *)
Lemma running_min_first (ms : list double) (m0 : double) :
  (forall m, In m (m0 :: ms) -> PrimFloat.is_nan m = false) ->
  exists i,
    nth_error (m0 :: ms) i = Some (running_min m0 ms) /\
    forall j m, (j < i)%nat -> nth_error (m0 :: ms) j = Some m ->
                PrimFloat.ltb (running_min m0 ms) m = true.
Proof.
  revert m0. induction ms as [|m1 ms IH]; intros m0 Hnan.
  - exists 0%nat. split; [reflexivity | intros j m Hj; lia].
  - change (running_min m0 (m1 :: ms))
      with (running_min (if PrimFloat.ltb m1 m0 then m1 else m0) ms).
    destruct (PrimFloat.ltb m1 m0) eqn:E.
    + destruct (IH m1) as [i [Hi Hbefore]].
      { intros m Hm. apply Hnan. right. exact Hm. }
      exists (S i). split; [exact Hi|].
      intros [|j] m Hj Hm; simpl in Hm.
      * inversion Hm; subst m. destruct i as [|i].
        -- simpl in Hi. assert (Hr : running_min m1 ms = m1) by congruence.
           rewrite Hr. exact E.
        -- apply ltb_trans with (y := m1); [|exact E].
           apply (Hbefore 0%nat); [lia | reflexivity].
      * apply (Hbefore j); [lia | exact Hm].
    + destruct (IH m0) as [i [Hi Hbefore]].
      { intros m [<- | Hm]; apply Hnan; [left; reflexivity | right; right; exact Hm]. }
      destruct i as [|i].
      * exists 0%nat. split; [exact Hi | intros j m Hj; lia].
      * exists (S (S i)). split; [exact Hi|].
        intros [|[|j]] m Hj Hm; simpl in Hm.
        -- inversion Hm; subst m. apply (Hbefore 0%nat); [lia | reflexivity].
        -- inversion Hm; subst m.
           apply ltb_leb_trans with (y := m0).
           ++ apply (Hbefore 0%nat); [lia | reflexivity].
           ++ apply not_ltb_geb; [| | exact E]; apply Hnan; simpl; auto.
        -- apply (Hbefore (S j)); [lia | exact Hm].
Qed.

(** ** The rows of a line *)

Lemma rows_of_line_eq (c : carried) (l : site_line) :
  let st := scan_line (Nc_prev c) l in
  let r := report_line (maf_prev c) st l in
  rows_of_line c l =
  map (fun a => print_entry l st r (private_entry_of st (populations l) a))
      (filter (fun a => is_private a (populations l)) (segregating (populations l))).
Proof.
  unfold rows_of_line, process_line, report_line. simpl.
  rewrite examine_alleles_entries. simpl.
  rewrite map_map, scan_line_alleles.
  f_equal. apply filter_ext. intros a. apply private_test_eq.
Qed.

Lemma carrier_qualifies (a : string) (ps : list population) (pg : nat) (p : population) :
  In (pg, p) (carriers a ps) ->
  In (pg, p) (numbered ps) /\ qualifies p = true /\ carries a p = true.
Proof.
  unfold carriers. rewrite filter_In. unfold carrier. simpl.
  rewrite andb_true_iff. intros [Hin [Hq Hc]]. repeat split; assumption.
Qed.

Lemma qualifies_has_data (p : population) :
  qualifies p = true -> String.eqb (n1 p) NA = false.
Proof.
  unfold qualifies. rewrite andb_true_iff, negb_true_iff. intros [H _]. exact H.
Qed.

(** The entry pushed for an allele with a single carrier. *)
Lemma private_entry_of_eq (arr : nat -> double) (l : site_line) (a : string)
    (pg : nat) (p : population) :
  carriers a (populations l) = [(pg, p)] ->
  private_entry_of (scan_line arr l) (populations l) a =
  mk_private_entry a pg (recorded_freq a p) (mean_frequency a (populations l))
    (detection_log_prob (mean_frequency a (populations l)) (atof (s_Nc p))
       (PrimFloat.sub (total_Nc (populations l)) (atof (s_Nc p)))).
Proof.
  intros Hc. unfold private_entry_of, log_prob, detection_log_prob.
  rewrite mean_freq_a_eq, tally_allele_eq, scan_line_sum_Nc.
  unfold recorded_freqs. rewrite Hc. simpl.
  assert (Hin : In (pg, p) (carriers a (populations l))) by (rewrite Hc; left; reflexivity).
  apply carrier_qualifies in Hin. destruct Hin as [Hin [Hq _]].
  rewrite (scan_line_Nc arr l pg p Hin (qualifies_has_data p Hq)). reflexivity.
Qed.

Lemma is_private_carrier (a : string) (ps : list population) :
  is_private a ps = true -> exists pg p, carriers a ps = [(pg, p)].
Proof.
  unfold is_private. rewrite andb_true_iff, Nat.eqb_eq. intros [_ H].
  destruct (carriers a ps) as [|[pg p] [|x xs]]; try discriminate.
  exists pg, p. reflexivity.
Qed.

(** ** Populations and their identifiers *)

Lemma In_numbered_from (ps : list population) (k i : nat) (p : population) :
  In (i, p) (numbered_from k ps) <->
  (k <= i)%nat /\ nth_error ps (i - k) = Some p.
Proof.
  unfold numbered_from. revert k. induction ps as [|q ps IH]; intros k; simpl.
  - split; [contradiction|]. intros [_ H]. destruct (i - k)%nat; discriminate.
  - rewrite IH. split.
    + intros [E | [Hle Hn]].
      * inversion E; subst. rewrite Nat.sub_diag. split; [lia | reflexivity].
      * split; [lia|]. replace (i - k)%nat with (S (i - S k)) by lia. exact Hn.
    + intros [Hle Hn]. destruct (Nat.eq_dec i k) as [-> | Hne].
      * rewrite Nat.sub_diag in Hn. simpl in Hn. left. congruence.
      * right. split; [lia|].
        replace (i - k)%nat with (S (i - S k)) in Hn by lia. exact Hn.
Qed.

(** An identifier names one population. *)
Lemma numbered_from_functional (ps : list population) (k i : nat) (p q : population) :
  In (i, p) (numbered_from k ps) -> In (i, q) (numbered_from k ps) -> p = q.
Proof. rewrite !In_numbered_from. intros [_ Hp] [_ Hq]. congruence. Qed.

Lemma numbered_from_app (xs ys : list population) (k : nat) :
  numbered_from k (xs ++ ys) =
  numbered_from k xs ++ numbered_from (k + List.length xs) ys.
Proof.
  unfold numbered_from. revert k. induction xs as [|x xs IH]; intros k; simpl.
  - rewrite Nat.add_0_r. reflexivity.
  - rewrite IH.
    replace (k + S (List.length xs))%nat with (S k + List.length xs)%nat by lia.
    reflexivity.
Qed.

Lemma In_numbered_middle (pre post : list population) (p : population) :
  In (S (List.length pre), p) (numbered (pre ++ p :: post)).
Proof.
  unfold numbered. rewrite numbered_from_app, in_app_iff. right.
  unfold numbered_from. simpl. left. reflexivity.
Qed.

Lemma numbered_ids_above (f : nat * population -> bool) (ps : list population) (k i : nat) :
  In i (map fst (filter f (numbered_from k ps))) -> (k <= i)%nat.
Proof.
  rewrite in_map_iff. intros [[j p] [E Hin]]. simpl in E. subst j.
  apply filter_In in Hin. destruct Hin as [Hin _].
  apply In_numbered_from in Hin. destruct Hin as [Hle _]. exact Hle.
Qed.

Lemma NoDup_numbered_ids (f : nat * population -> bool) (ps : list population) (k : nat) :
  NoDup (map fst (filter f (numbered_from k ps))).
Proof.
  revert k. induction ps as [|p ps IH]; intros k.
  - constructor.
  - change (numbered_from k (p :: ps)) with ((k, p) :: numbered_from (S k) ps).
    simpl. destruct (f (k, p)); [|apply IH].
    simpl. constructor; [|apply IH].
    intros Hin. apply numbered_ids_above in Hin. lia.
Qed.

(** The frequencies recorded for an allele do not depend on the
    identifiers of the populations. *)
Lemma recorded_freqs_plain (a : string) (ps : list population) (k : nat) :
  map (fun ip => recorded_freq a (snd ip)) (filter (carrier a) (numbered_from k ps)) =
  map (recorded_freq a) (filter (fun p => qualifies p && carries a p) ps).
Proof.
  revert k. induction ps as [|p ps IH]; intros k; [reflexivity|].
  change (numbered_from k (p :: ps)) with ((k, p) :: numbered_from (S k) ps).
  simpl. unfold carrier at 1. simpl.
  destruct (qualifies p && carries a p); simpl; rewrite IH; reflexivity.
Qed.

Lemma combine_map_both (A B C : Type) (f : A -> B) (g : A -> C) (xs : list A) :
  combine (map f xs) (map g xs) = map (fun x => (f x, g x)) xs.
Proof. induction xs as [|x xs IH]; simpl; [reflexivity | rewrite IH; reflexivity]. Qed.

(** The identifiers and the frequencies of a tally, side by side. *)
Lemma tally_allele_pairs (arr : nat -> double) (l : site_line) (a : string) :
  let t := tally_allele (scan_line arr l) (populations l) a in
  combine (id_pop_a t) (freq_a t) =
  map (fun ip => (fst ip, recorded_freq a (snd ip))) (carriers a (populations l)).
Proof.
  simpl. rewrite tally_allele_eq. simpl. unfold recorded_freqs.
  apply combine_map_both.
Qed.

Lemma read_pops_app (xs ys : list population) (pg : nat) (st : scan) :
  read_pops pg (xs ++ ys) st =
  read_pops (pg + List.length xs) ys (read_pops pg xs st).
Proof.
  revert pg st. induction xs as [|x xs IH]; intros pg st; simpl.
  - rewrite Nat.add_0_r. reflexivity.
  - rewrite IH. f_equal. lia.
Qed.

(** The segregating alleles are the first alleles of the qualifying
    populations and the second alleles that pass the gate. *)
Lemma segregating_In (ps : list population) (a : string) :
  In a (segregating ps) <->
  exists p, In p ps /\ qualifies p = true /\
            (n1 p = a \/ (admits_allele2 p = true /\ n2 p = a)).
Proof.
  unfold segregating. rewrite In_fold_add_allele, in_flat_map. simpl.
  split.
  - intros [[] | [p [Hp Ha]]]. exists p. split; [exact Hp|].
    unfold offered in Ha. destruct (qualifies p); [|contradiction].
    split; [reflexivity|]. destruct Ha as [E | Ha]; [left; exact E|].
    destruct (admits_allele2 p); [|contradiction].
    destruct Ha as [E | []]. right. split; [reflexivity | exact E].
  - intros [p [Hp [Hq Ha]]]. right. exists p. split; [exact Hp|].
    unfold offered. rewrite Hq. destruct Ha as [E | [Hadm E]].
    + left. exact E.
    + rewrite Hadm. right. left. exact E.
Qed.

Lemma NoDup_segregating (ps : list population) : NoDup (segregating ps).
Proof. apply NoDup_fold_add_allele. constructor. Qed.

(** * The properties of the specification *)

(** C1.  The private alleles of a line are the segregating alleles that
    exactly one qualifying population carries, at a site with at least two
    qualifying populations: the rows name exactly those alleles, in the
    order of the segregating alleles; the two counters of the test of
    line 211 are the number of carriers and the number of qualifying
    populations; a site with one qualifying population has no row. *)
Theorem private_allele_condition (c : carried) (l : site_line) :
  let ps := populations l in
  let st := scan_line (Nc_prev c) l in
  map o_private_allele (rows_of_line c l) =
    filter (fun a => is_private a ps) (segregating ps) /\
  (forall a, In a (map o_private_allele (rows_of_line c l)) <->
     In a (segregating ps) /\
     List.length (carriers a ps) = 1%nat /\ 2 <= count_qualifying ps) /\
  ne_pops st = count_qualifying ps /\
  (forall a, num_pops_a st ps a = Z.of_nat (List.length (carriers a ps))) /\
  (count_qualifying ps = 1 -> rows_of_line c l = []).
Proof.
  intros ps st.
  assert (Hrows : map o_private_allele (rows_of_line c l) =
                  filter (fun a => is_private a ps) (segregating ps)).
  { rewrite rows_of_line_eq, map_map. simpl. apply map_id. }
  split; [exact Hrows|]. split; [|split; [|split]].
  - intros a. rewrite Hrows, filter_In. unfold is_private.
    rewrite andb_true_iff, Z.leb_le, Nat.eqb_eq. tauto.
  - apply scan_line_ne_pops.
  - intros a. apply num_pops_a_eq.
  - intros H1. clear Hrows. rewrite rows_of_line_eq. fold ps.
    replace (filter (fun a => is_private a ps) (segregating ps)) with (@nil string);
      [reflexivity|].
    symmetry. induction (segregating ps) as [|a als IH]; simpl; [reflexivity|].
    unfold is_private at 1. rewrite H1. simpl. exact IH.
Qed.

(** C6.  The mean frequency of an allele is the sum of the frequencies
    recorded for its carriers, taken in the order of the populations,
    divided by the number of qualifying populations of the site, and this
    is the total frequency of every row. *)
Theorem mean_frequency_denominator (c : carried) (l : site_line) (a : string) :
  let ps := populations l in
  let st := scan_line (Nc_prev c) l in
  freq_a (tally_allele st ps a) = recorded_freqs a ps /\
  sum_freq_a (tally_allele st ps a) = sum_from PrimFloat.zero (recorded_freqs a ps) /\
  ne_pops st = Z.of_nat (List.length (qualifying ps)) /\
  mean_freq_a st ps a =
    PrimFloat.div (sum_from PrimFloat.zero (recorded_freqs a ps))
                  (double_of_int (Z.of_nat (List.length (qualifying ps)))) /\
  Forall (fun row => o_total_frequency row =
            PrimFloat.div
              (sum_from PrimFloat.zero (recorded_freqs (o_private_allele row) ps))
              (double_of_int (Z.of_nat (List.length (qualifying ps)))))
         (rows_of_line c l).
Proof.
  intros ps st. unfold st, ps.
  rewrite tally_allele_eq, mean_freq_a_eq, scan_line_ne_pops. simpl.
  repeat split.
  rewrite rows_of_line_eq. apply Forall_forall. intros row Hrow.
  apply in_map_iff in Hrow. destruct Hrow as [b [<- _]]. simpl.
  apply mean_freq_a_eq.
Qed.

(** C3.  Every row is that of an allele with a single carrier: it names
    that population and the frequency recorded for it, its total frequency
    is the mean frequency of the allele, and its log-probability is
    [log10 ((1 - (1 - p)^Nc_focal) * (1 - p)^Nc_other)] with [p] the mean
    frequency, [Nc_focal] the [Nc] of the carrier and [Nc_other] the sum
    of [Nc] over the qualifying populations minus [Nc_focal]. *)
Theorem log_prob_formula (c : carried) (l : site_line) :
  let ps := populations l in
  Forall (fun row =>
            exists pg p,
              carriers (o_private_allele row) ps = [(pg, p)] /\
              o_id_pop row = pg /\
              o_focal_frequency row = recorded_freq (o_private_allele row) p /\
              o_total_frequency row = mean_frequency (o_private_allele row) ps /\
              let mean := mean_frequency (o_private_allele row) ps in
              let Nc_focal := atof (s_Nc p) in
              let Nc_other := PrimFloat.sub (total_Nc ps) Nc_focal in
              o_log_prob_pa row =
              log10 (PrimFloat.mul
                       (PrimFloat.sub PrimFloat.one
                          (pow (PrimFloat.sub PrimFloat.one mean) Nc_focal))
                       (pow (PrimFloat.sub PrimFloat.one mean) Nc_other)))
         (rows_of_line c l).
Proof.
  intros ps. rewrite rows_of_line_eq. apply Forall_forall. intros row Hrow.
  apply in_map_iff in Hrow. destruct Hrow as [a [<- Ha]].
  apply filter_In in Ha. destruct Ha as [_ Ha].
  destruct (is_private_carrier a _ Ha) as [pg [p Hc]].
  exists pg, p. unfold print_entry.
  rewrite (private_entry_of_eq _ l a pg p Hc). simpl.
  repeat split. exact Hc.
Qed.

(** The minor allele frequency of a site with alleles is the running
    minimum of their mean frequencies, whatever the previous line left. *)
Lemma report_line_maf (maf0 : double) (arr : nat -> double) (l : site_line)
    (a0 : string) (rest : list string) :
  segregating (populations l) = a0 :: rest ->
  maf_total (report_line maf0 (scan_line arr l) l) =
  running_min (mean_frequency a0 (populations l))
              (map (fun a => mean_frequency a (populations l)) rest).
Proof.
  intros E. unfold report_line. rewrite scan_line_alleles, E.
  rewrite examine_alleles_maf, mean_freq_a_eq. f_equal.
  apply map_ext. intros a. apply mean_freq_a_eq.
Qed.

(** The rows of what the variables hold do not depend on what the lines
    before left in [Nc] and [maf_total]: the cells of [Nc] that are read
    were written in this iteration, and [maf_total] is printed only at a
    site with alleles, where it was assigned. *)
Lemma rows_of_line_independent (c c' : carried) (l : site_line) :
  rows_of_line c l = rows_of_line c' l.
Proof.
  rewrite !rows_of_line_eq. apply map_ext_in. intros a Ha.
  apply filter_In in Ha. destruct Ha as [Hseg Hpriv].
  destruct (is_private_carrier a _ Hpriv) as [pg [p Hc]].
  unfold print_entry. rewrite !(private_entry_of_eq _ l a pg p Hc).
  rewrite !scan_line_tot_cov, !scan_line_ne_pops, !scan_line_alleles.
  destruct (segregating (populations l)) as [|a0 rest] eqn:E; [contradiction|].
  rewrite !(report_line_maf _ _ l a0 rest E). reflexivity.
Qed.

(** What the running minimum gives at a site with a segregating allele,
    NaN or not: the minor allele frequency every row reports is one of the
    mean frequencies of the segregating alleles and none of them is
    strictly smaller; the rest needs means that are numbers. *)
Lemma maf_total_running_minimum (c : carried) (l : site_line) :
  let ps := populations l in
  let means := map (fun a => mean_frequency a ps) (segregating ps) in
  let maf := maf_prev (snd (process_line c l)) in
  segregating ps <> [] ->
  Forall (fun row => o_MAF row = maf) (rows_of_line c l) /\
  In maf means /\
  (forall m, In m means -> PrimFloat.ltb m maf = false) /\
  ((forall m, In m means -> PrimFloat.is_nan m = false) ->
   (forall m, In m means -> PrimFloat.leb maf m = true) /\
   exists i, nth_error means i = Some maf /\
             forall j m, (j < i)%nat -> nth_error means j = Some m ->
                         PrimFloat.ltb maf m = true) /\
  (forall a, segregating ps = [a] -> maf = mean_frequency a ps).
Proof.
  intros ps means maf Hne.
  assert (Hmaf : forall a0 rest, segregating ps = a0 :: rest ->
            maf = running_min (mean_frequency a0 ps)
                    (map (fun a => mean_frequency a ps) rest)).
  { intros a0 rest E. unfold maf, process_line. cbn [snd maf_prev].
    apply report_line_maf. exact E. }
  subst means.
  destruct (segregating ps) as [|a0 rest] eqn:E; [contradiction|].
  specialize (Hmaf a0 rest eq_refl). simpl map.
  set (m0 := mean_frequency a0 ps) in *.
  set (ms := map (fun a => mean_frequency a ps) rest) in *.
  split; [|split; [|split; [|split]]].
  - apply Forall_forall. intros row Hrow.
    unfold rows_of_line, process_line in Hrow. simpl in Hrow.
    apply in_map_iff in Hrow. destruct Hrow as [e [<- _]]. reflexivity.
  - rewrite Hmaf. apply running_min_In.
  - intros m Hm. rewrite Hmaf. apply running_min_lower. exact Hm.
  - intros Hnan. split.
    + intros m Hm. apply not_ltb_geb.
      * apply Hnan. exact Hm.
      * apply Hnan. rewrite Hmaf. apply running_min_In.
      * rewrite Hmaf. apply running_min_lower. exact Hm.
    + rewrite Hmaf. apply running_min_first. exact Hnan.
  - intros a Ha. inversion Ha; subst. rewrite Hmaf. reflexivity.
Qed.

(** C7, with the condition the comparison of doubles needs.  At a site
    with a segregating allele where no mean frequency is NaN, the minor
    allele frequency every row reports is the minimum of the mean
    frequencies of the segregating alleles: it is one of them, it is below
    or equal to every one of them, and it sits at the first index that
    reaches it (every earlier mean is strictly larger); with a single
    segregating allele it is the mean frequency of that allele. *)
Theorem maf_total_is_minimum (c : carried) (l : site_line) :
  let ps := populations l in
  let means := map (fun a => mean_frequency a ps) (segregating ps) in
  let maf := maf_prev (snd (process_line c l)) in
  segregating ps <> [] ->
  (forall m, In m means -> PrimFloat.is_nan m = false) ->
  Forall (fun row => o_MAF row = maf) (rows_of_line c l) /\
  In maf means /\
  (forall m, In m means -> PrimFloat.leb maf m = true) /\
  (exists i, nth_error means i = Some maf /\
             forall j m, (j < i)%nat -> nth_error means j = Some m ->
                         PrimFloat.ltb maf m = true) /\
  (forall a, segregating ps = [a] -> maf = mean_frequency a ps).
Proof.
  intros ps means maf Hne Hnan.
  destruct (maf_total_running_minimum c l Hne) as [Hrows [Hin [_ [Hmin Hone]]]].
  destruct (Hmin Hnan) as [Hle Hfirst].
  repeat split; assumption.
Qed.

(** C9.  When the loop over the alleles runs its body for an allele, so
    that line 203 divides by [ne_pops], some population of the line
    qualifies and [ne_pops] is at least one (and at most the number of
    populations). *)
Theorem division_by_ne_pops_guarded (c : carried) (l : site_line) (a : string) :
  let ps := populations l in
  let st := scan_line (Nc_prev c) l in
  In a (alleles st) ->
  1 <= ne_pops st <= Z.of_nat (List.length ps) /\
  (exists p, In p ps /\ qualifies p = true).
Proof.
  intros ps st Ha. unfold st in *.
  rewrite scan_line_alleles in Ha. rewrite scan_line_ne_pops.
  apply segregating_In in Ha. destruct Ha as [p [Hp [Hq _]]].
  assert (Hin : In p (qualifying (populations l))).
  { unfold qualifying. apply filter_In. split; assumption. }
  split.
  - unfold count_qualifying. split.
    + destruct (qualifying (populations l)); [contradiction | simpl; lia].
    + apply inj_le. unfold qualifying. apply filter_length_le.
  - exists p. split; assumption.
Qed.

(** An allele enters the set only with a population that is counted. *)
Lemma scan_pop_insertion_counts (pg : nat) (p : population) (st : scan) :
  alleles (scan_pop pg p st) <> alleles st ->
  ne_pops (scan_pop pg p st) = ne_pops st + 1.
Proof.
  rewrite scan_pop_eq. simpl. unfold offered.
  destruct (qualifies p); simpl; [reflexivity | congruence].
Qed.

(** A site without alleles leaves the report as it was: the body of the
    loop over the alleles, and its division, are not run. *)
Lemma report_line_no_allele (maf : double) (st : scan) (l : site_line) :
  alleles st = [] -> report_line maf st l = mk_report maf [].
Proof. unfold report_line. intros ->. reflexivity. Qed.

(** ** Populations that do not qualify *)

Lemma below_threshold_not_qualifying (p : population) :
  n1 p = NA \/ PrimFloat.ltb (atof (s_Nc p)) min_Nc = true ->
  qualifies p = false.
Proof.
  unfold qualifies. intros [E | Hlt].
  - rewrite E, String.eqb_refl. reflexivity.
  - rewrite (ltb_not_geb _ _ Hlt). apply andb_false_r.
Qed.

Lemma qualifying_without (pre post : list population) (p : population) :
  qualifies p = false -> qualifying (pre ++ p :: post) = qualifying (pre ++ post).
Proof.
  intros Hq. unfold qualifying. rewrite !filter_app. simpl. rewrite Hq. reflexivity.
Qed.

Lemma segregating_without (pre post : list population) (p : population) :
  qualifies p = false -> segregating (pre ++ p :: post) = segregating (pre ++ post).
Proof.
  intros Hq. unfold segregating. rewrite !flat_map_app. simpl.
  unfold offered at 2. rewrite Hq. reflexivity.
Qed.

Lemma recorded_freqs_without (a : string) (pre post : list population) (p : population) :
  qualifies p = false ->
  recorded_freqs a (pre ++ p :: post) = recorded_freqs a (pre ++ post).
Proof.
  intros Hq. unfold recorded_freqs, carriers, numbered.
  rewrite !recorded_freqs_plain, !filter_app. simpl. rewrite Hq. reflexivity.
Qed.

(** C4.  A population without data, or with [Nc] below the threshold,
    adds its coverage to the total coverage and changes neither the count
    of qualifying populations, nor the sum of [Nc], nor the alleles; the
    loop over the populations of any allele passes it by, its identifier
    is in no tally, and every count, set, sum and mean of the line is the
    one of the line without that population. *)
Theorem threshold_gating (c : carried) (l : site_line)
    (pre post : list population) (p : population) :
  populations l = pre ++ p :: post ->
  n1 p = NA \/ PrimFloat.ltb (atof (s_Nc p)) min_Nc = true ->
  let pg := S (List.length pre) in
  let before := read_pops 1 pre (scan_init (Nc_prev c)) in
  let after := scan_pop pg p before in
  let st := scan_line (Nc_prev c) l in
  let l' := mk_site_line (scaffold l) (site l) (ref_nuc l) (pre ++ post) in
  let st' := scan_line (Nc_prev c) l' in
  st = read_pops (S pg) post after /\
  tot_cov after = int_wrap (tot_cov before + pop_cov p) /\
  ne_pops after = ne_pops before /\
  sum_Nc after = sum_Nc before /\
  alleles after = alleles before /\
  (forall a t, tally_pop (Nc st) a pg p t = t) /\
  (forall a, ~ In pg (id_pop_a (tally_allele st (populations l) a))) /\
  ne_pops st = ne_pops st' /\
  sum_Nc st = sum_Nc st' /\
  alleles st = alleles st' /\
  (forall a, freq_a (tally_allele st (populations l) a) =
             freq_a (tally_allele st' (populations l') a)) /\
  (forall a, sum_freq_a (tally_allele st (populations l) a) =
             sum_freq_a (tally_allele st' (populations l') a)) /\
  (forall a, mean_freq_a st (populations l) a = mean_freq_a st' (populations l') a).
Proof.
  intros Hl Hp pg before after st l' st'.
  pose proof (below_threshold_not_qualifying p Hp) as Hq.
  assert (Hpg : In (pg, p) (numbered (populations l))).
  { rewrite Hl. apply In_numbered_middle. }
  assert (Hst : st = read_pops (S pg) post after).
  { unfold st, scan_line. rewrite Hl, read_pops_app. reflexivity. }
  assert (Hstep : after =
            mk_scan (int_wrap (tot_cov before + pop_cov p)) (ne_pops before)
              (sum_Nc before) (alleles before)
              (if String.eqb (n1 p) NA then Nc before
               else upd (Nc before) pg (atof (s_Nc p)))).
  { unfold after. rewrite scan_pop_eq. unfold offered. rewrite Hq. reflexivity. }
  assert (Hrec : forall a, recorded_freqs a (populations l) =
                           recorded_freqs a (populations l')).
  { intros a. rewrite Hl. apply recorded_freqs_without, Hq. }
  assert (Hcount : count_qualifying (populations l) = count_qualifying (populations l')).
  { unfold count_qualifying. rewrite Hl. simpl. rewrite (qualifying_without _ _ _ Hq).
    reflexivity. }
  split; [exact Hst|]. rewrite Hstep. simpl.
  repeat match goal with |- _ /\ _ => split end; try reflexivity.
  - intros a t. rewrite tally_pop_eq.
    + unfold carrier. simpl. rewrite Hq. reflexivity.
    + intros Hna. apply (scan_line_Nc (Nc_prev c) l pg p Hpg Hna).
  - intros a Hin. unfold st in Hin. rewrite tally_allele_eq in Hin. simpl in Hin.
    apply in_map_iff in Hin. destruct Hin as [[i q] [E Hin]]. simpl in E. subst i.
    apply carrier_qualifies in Hin. destruct Hin as [Hin [Hq' _]].
    rewrite (numbered_from_functional _ _ _ _ _ Hin Hpg) in Hq'. congruence.
  - unfold st, st'. rewrite !scan_line_ne_pops. exact Hcount.
  - unfold st, st'. rewrite !scan_line_sum_Nc. unfold total_Nc.
    rewrite Hl. simpl. rewrite (qualifying_without _ _ _ Hq). reflexivity.
  - unfold st, st'. rewrite !scan_line_alleles. rewrite Hl. simpl.
    apply segregating_without, Hq.
  - intros a. unfold st, st'. rewrite !tally_allele_eq. simpl. apply Hrec.
  - intros a. unfold st, st'. rewrite !tally_allele_eq. simpl. rewrite Hrec. reflexivity.
  - intros a. unfold st, st'. rewrite !mean_freq_a_eq. unfold mean_frequency.
    rewrite Hrec, Hcount. reflexivity.
Qed.

(** C5.  For a qualifying population with a second allele, the first loop
    pushes that allele (unless already there) when the statistic is above
    the critical value and leaves the vector as the first allele left it
    otherwise; so an allele that was not there is there afterwards if and
    only if the statistic is strictly above the critical value, and not
    when the two are equal.  Over the whole line, the segregating alleles
    are the first alleles of the qualifying populations and the second
    alleles that pass the gate. *)
Theorem significance_gate (c : carried) (l : site_line)
    (pre post : list population) (p : population) :
  populations l = pre ++ p :: post ->
  qualifies p = true ->
  n2 p <> NA ->
  let pg := S (List.length pre) in
  let before := read_pops 1 pre (scan_init (Nc_prev c)) in
  let after := scan_pop pg p before in
  let with_allele1 := add_allele (alleles before) (n1 p) in
  let llstat := atof (s_pol_llstat p) in
  scan_line (Nc_prev c) l = read_pops (S pg) post after /\
  (PrimFloat.ltb cv llstat = true -> alleles after = add_allele with_allele1 (n2 p)) /\
  (PrimFloat.ltb cv llstat = false -> alleles after = with_allele1) /\
  (~ In (n2 p) with_allele1 ->
   (In (n2 p) (alleles after) <-> PrimFloat.ltb cv llstat = true)) /\
  (PrimFloat.eqb llstat cv = true -> alleles after = with_allele1) /\
  (forall a, In a (alleles (scan_line (Nc_prev c) l)) <->
     exists q, In q (populations l) /\ qualifies q = true /\
       (n1 q = a \/
        (n2 q <> NA /\ PrimFloat.ltb cv (atof (s_pol_llstat q)) = true /\ n2 q = a))).
Proof.
  intros Hl Hq Hn2 pg before after with_allele1 llstat.
  assert (Hna : String.eqb (n2 p) NA = false) by (apply String.eqb_neq; exact Hn2).
  assert (Hstep : alleles after =
            if PrimFloat.ltb cv llstat then add_allele with_allele1 (n2 p)
            else with_allele1).
  { unfold after. rewrite scan_pop_eq. simpl. unfold offered, admits_allele2.
    rewrite Hq, Hna. simpl. fold llstat. destruct (PrimFloat.ltb cv llstat); reflexivity. }
  split; [|split; [|split; [|split; [|split]]]].
  - unfold scan_line. rewrite Hl, read_pops_app. reflexivity.
  - intros E. rewrite Hstep, E. reflexivity.
  - intros E. rewrite Hstep, E. reflexivity.
  - intros Hnot. rewrite Hstep. destruct (PrimFloat.ltb cv llstat).
    + rewrite In_add_allele. split; [reflexivity | auto].
    + split; [contradiction | discriminate].
  - intros E. rewrite Hstep, (eqb_not_gtb _ _ E). reflexivity.
  - intros a. rewrite scan_line_alleles, segregating_In.
    split; intros [q [Hin [Hqq Ha]]]; exists q; (split; [exact Hin|]);
      (split; [exact Hqq|]); unfold admits_allele2 in *.
    + destruct Ha as [E | [Hadm E]]; [left; exact E|]. right.
      apply andb_true_iff in Hadm. destruct Hadm as [H1 H2].
      apply negb_true_iff, String.eqb_neq in H1. auto.
    + destruct Ha as [E | [H1 [H2 E]]]; [left; exact E|]. right.
      split; [|exact E]. apply andb_true_iff. split; [|exact H2].
      apply negb_true_iff, String.eqb_neq. exact H1.
Qed.

(** ** Carriers *)

Lemma carries_iff (a : string) (p : population) :
  carries a p = true <-> n1 p = a \/ n2 p = a.
Proof. unfold carries. rewrite orb_true_iff, !String.eqb_eq. reflexivity. Qed.

(** What the tally of an allele holds for a qualifying population. *)
Lemma tally_pairs_In (arr : nat -> double) (l : site_line) (a : string)
    (pg : nat) (p : population) (f : double) :
  In (pg, p) (numbered (populations l)) ->
  let t := tally_allele (scan_line arr l) (populations l) a in
  In (pg, f) (combine (id_pop_a t) (freq_a t)) <->
  qualifies p = true /\ carries a p = true /\ f = recorded_freq a p.
Proof.
  intros Hpg t. unfold t. rewrite tally_allele_pairs, in_map_iff. split.
  - intros [[i q] [E Hin]]. simpl in E. inversion E; subst i f.
    apply carrier_qualifies in Hin. destruct Hin as [Hin [Hq Hc]].
    rewrite (numbered_from_functional _ _ _ _ _ Hpg Hin). auto.
  - intros [Hq [Hc ->]]. exists (pg, p). split; [reflexivity|].
    unfold carriers. apply filter_In. split; [exact Hpg|].
    unfold carrier. simpl. rewrite Hq, Hc. reflexivity.
Qed.

(** C10.  A qualifying population whose two alleles are both the allele
    examined is pushed once, with the frequency of its first allele: the
    step of the loop appends its identifier and [freq1], the identifier
    occurs once in the tally, and the only frequency recorded with it is
    [freq1]. *)
Theorem allele1_takes_precedence (c : carried) (l : site_line)
    (pg : nat) (p : population) (a : string) :
  In (pg, p) (numbered (populations l)) ->
  qualifies p = true ->
  n1 p = a ->
  n2 p = a ->
  let st := scan_line (Nc_prev c) l in
  let t := tally_allele st (populations l) a in
  (forall t0, tally_pop (Nc st) a pg p t0 =
     mk_tally (id_pop_a t0 ++ [pg]) (freq_a t0 ++ [atof (s_best_p p)])
              (PrimFloat.add (sum_freq_a t0) (atof (s_best_p p)))) /\
  count_occ Nat.eq_dec (id_pop_a t) pg = 1%nat /\
  In (pg, atof (s_best_p p)) (combine (id_pop_a t) (freq_a t)) /\
  (forall f, In (pg, f) (combine (id_pop_a t) (freq_a t)) -> f = atof (s_best_p p)).
Proof.
  intros Hpg Hq H1 H2 st t.
  assert (Hc : carries a p = true) by (apply carries_iff; auto).
  assert (Hrec : recorded_freq a p = atof (s_best_p p)).
  { unfold recorded_freq. rewrite H1, String.eqb_refl. reflexivity. }
  assert (Hin : In (pg, atof (s_best_p p)) (combine (id_pop_a t) (freq_a t))).
  { apply (tally_pairs_In (Nc_prev c) l a pg p _ Hpg). rewrite Hrec. auto. }
  split; [|split; [|split]].
  - intros t0. rewrite tally_pop_eq.
    + unfold carrier. simpl. rewrite Hq, Hc, Hrec. reflexivity.
    + intros Hna. apply (scan_line_Nc (Nc_prev c) l pg p Hpg Hna).
  - apply NoDup_count_occ'.
    + unfold t, st. rewrite tally_allele_eq. simpl. apply NoDup_numbered_ids.
    + apply in_combine_l in Hin. exact Hin.
  - exact Hin.
  - intros f Hf. apply (tally_pairs_In (Nc_prev c) l a pg p f Hpg) in Hf.
    destruct Hf as [_ [_ ->]]. exact Hrec.
Qed.

(** C2, as the code has it.  The loop over the populations of an allele
    does not look at the statistic: a qualifying population is in the
    tally of an allele exactly when one of its two alleles is that allele,
    with [freq1] when the first is, and with [freq2] when only the second
    is, whether or not the gate admitted that second allele. *)
Theorem allele2_recorded_without_gate (c : carried) (l : site_line)
    (pg : nat) (p : population) (a : string) :
  In (pg, p) (numbered (populations l)) ->
  qualifies p = true ->
  let st := scan_line (Nc_prev c) l in
  let t := tally_allele st (populations l) a in
  (In pg (id_pop_a t) <-> n1 p = a \/ n2 p = a) /\
  (forall f, In (pg, f) (combine (id_pop_a t) (freq_a t)) <->
     (n1 p = a /\ f = atof (s_best_p p)) \/
     (n1 p <> a /\ n2 p = a /\ f = atof (s_best_q p))) /\
  (n1 p <> a -> n2 p = a ->
   forall t0, tally_pop (Nc st) a pg p t0 =
     mk_tally (id_pop_a t0 ++ [pg]) (freq_a t0 ++ [atof (s_best_q p)])
              (PrimFloat.add (sum_freq_a t0) (atof (s_best_q p)))).
Proof.
  intros Hpg Hq st t.
  assert (Hpairs : forall f, In (pg, f) (combine (id_pop_a t) (freq_a t)) <->
            (n1 p = a /\ f = atof (s_best_p p)) \/
            (n1 p <> a /\ n2 p = a /\ f = atof (s_best_q p))).
  { intros f. unfold t, st. rewrite (tally_pairs_In (Nc_prev c) l a pg p f Hpg).
    rewrite carries_iff. unfold recorded_freq.
    destruct (String.eqb_spec (n1 p) a) as [E | E]; split.
    - intros [_ [_ Hf]]. left. split; assumption.
    - intros [[_ Hf] | [Hne _]]; [|contradiction]. repeat split; auto.
    - intros [_ [[E1 | E2] Hf]]; [contradiction|]. right. repeat split; assumption.
    - intros [[E1 _] | [_ [E2 Hf]]]; [contradiction|]. repeat split; auto. }
  split; [|split].
  - split.
    + intros Hin. unfold t, st in Hin. rewrite tally_allele_eq in Hin. simpl in Hin.
      apply in_map_iff in Hin. destruct Hin as [[i q] [E Hin]]. simpl in E. subst i.
      apply carrier_qualifies in Hin. destruct Hin as [Hin [_ Hc]].
      rewrite (numbered_from_functional _ _ _ _ _ Hpg Hin). apply carries_iff, Hc.
    + intros Hc. apply in_combine_l with (l' := freq_a t) (y := recorded_freq a p).
      apply (tally_pairs_In (Nc_prev c) l a pg p _ Hpg).
      rewrite carries_iff. auto.
  - exact Hpairs.
  - intros Hn1 Hn2 t0. rewrite tally_pop_eq.
    + unfold carrier, carries, recorded_freq. simpl. rewrite Hq.
      apply String.eqb_neq in Hn1. apply String.eqb_eq in Hn2.
      rewrite Hn1, Hn2. reflexivity.
    + intros Hna. apply (scan_line_Nc (Nc_prev c) l pg p Hpg Hna).
Qed.

(** * More on the lines *)

(** ** The vector of alleles *)

Lemma fold_add_allele_length (xs als : list string) :
  (List.length (fold_left add_allele xs als) <= List.length als + List.length xs)%nat.
Proof.
  revert als. induction xs as [|x xs IH]; intros als; simpl; [lia|].
  specialize (IH (add_allele als x)). unfold add_allele in *.
  destruct (has_allele als x); [lia|].
  rewrite length_app in IH. simpl in IH. lia.
Qed.

Lemma offered_length (ps : list population) :
  (List.length (flat_map offered ps) <= 2 * List.length (qualifying ps))%nat.
Proof.
  unfold qualifying. induction ps as [|p ps IH]; simpl; [lia|].
  rewrite length_app. unfold offered at 1.
  destruct (qualifies p); simpl; [|lia].
  destruct (admits_allele2 p); simpl; lia.
Qed.

(** X11.  After the first loop the vector of alleles has no allele twice
    and no [NA], and at most two alleles for each qualifying population;
    the count of qualifying populations is between zero and the number of
    populations of the line. *)
Theorem allele_vector_invariants (c : carried) (l : site_line) :
  let st := scan_line (Nc_prev c) l in
  NoDup (alleles st) /\
  ~ In NA (alleles st) /\
  Z.of_nat (List.length (alleles st)) <= 2 * ne_pops st /\
  0 <= ne_pops st <= Z.of_nat (List.length (populations l)).
Proof.
  intros st. unfold st. rewrite scan_line_alleles, scan_line_ne_pops.
  split; [apply NoDup_segregating|]. split; [|split].
  - intros Hin. apply segregating_In in Hin.
    destruct Hin as [p [_ [Hq [E | [Hadm E]]]]].
    + apply qualifies_has_data in Hq. rewrite E, String.eqb_refl in Hq. discriminate.
    + unfold admits_allele2 in Hadm. rewrite E, String.eqb_refl in Hadm. discriminate.
  - unfold segregating, count_qualifying.
    pose proof (fold_add_allele_length (flat_map offered (populations l)) []) as H1.
    pose proof (offered_length (populations l)) as H2. simpl in H1. lia.
  - unfold count_qualifying, qualifying.
    pose proof (filter_length_le qualifies (populations l)). lia.
Qed.

(** ** The rows *)

Lemma rows_alleles (c : carried) (l : site_line) :
  map o_private_allele (rows_of_line c l) =
  filter (fun a => is_private a (populations l)) (segregating (populations l)).
Proof. rewrite rows_of_line_eq, map_map. simpl. apply map_id. Qed.

(** X12.  A line has at most one row for an allele, and no more rows
    than segregating alleles. *)
Theorem one_row_per_allele (c : carried) (l : site_line) :
  NoDup (map o_private_allele (rows_of_line c l)) /\
  (List.length (rows_of_line c l)
   <= List.length (alleles (scan_line (Nc_prev c) l)))%nat.
Proof.
  split.
  - rewrite rows_alleles. apply NoDup_filter, NoDup_segregating.
  - rewrite <- (length_map o_private_allele), rows_alleles, scan_line_alleles.
    apply filter_length_le.
Qed.

Lemma carriers_length (a : string) (ps : list population) :
  List.length (carriers a ps) =
  List.length (filter (fun p => qualifies p && carries a p) ps).
Proof.
  unfold carriers, numbered.
  rewrite <- (length_map (fun ip => recorded_freq a (snd ip))).
  rewrite recorded_freqs_plain. apply length_map.
Qed.

(** Fewer elements pass two tests than one: something passes the first
    and fails the second. *)
Lemma filter_both_shorter (A : Type) (f g : A -> bool) (xs : list A) :
  (List.length (filter (fun x => f x && g x) xs) < List.length (filter f xs))%nat ->
  exists x, In x xs /\ f x = true /\ g x = false.
Proof.
  induction xs as [|x xs IH]; simpl; [lia|].
  destruct (f x) eqn:Hf; simpl.
  - destruct (g x) eqn:Hg; simpl.
    + intros H. destruct IH as [y [Hy Hfg]]; [lia|]. exists y. split; [right; exact Hy | exact Hfg].
    + intros _. exists x. split; [left; reflexivity | split; assumption].
  - intros H. destruct (IH H) as [y [Hy Hfg]]. exists y. split; [right; exact Hy | exact Hfg].
Qed.

Lemma two_distinct_length (A : Type) (xs : list A) (a b : A) :
  In a xs -> In b xs -> a <> b -> (2 <= List.length xs)%nat.
Proof.
  destruct xs as [|x [|y xs]]; simpl; intros Ha Hb Hab; try lia; try contradiction.
  destruct Ha as [<- | []], Hb as [<- | []]. contradiction.
Qed.

(** X13.  A row is written only at a site that is polymorphic in the
    whole sample: it reports at least two segregating alleles and at
    least two qualifying populations, and its focal population is one of
    the populations of the line. *)
Theorem rows_come_from_polymorphic_sites (c : carried) (l : site_line) :
  Forall (fun row =>
            2 <= o_num_alleles row /\
            2 <= o_ne_pops row <= Z.of_nat (List.length (populations l)) /\
            (1 <= o_id_pop row <= List.length (populations l))%nat)
         (rows_of_line c l).
Proof.
  rewrite rows_of_line_eq. apply Forall_forall. intros row Hrow.
  apply in_map_iff in Hrow. destruct Hrow as [a [<- Ha]].
  apply filter_In in Ha. destruct Ha as [Hseg Hpriv].
  destruct (is_private_carrier a _ Hpriv) as [pg [p Hc]].
  unfold print_entry. rewrite (private_entry_of_eq _ l a pg p Hc). simpl.
  rewrite scan_line_ne_pops, scan_line_alleles.
  unfold is_private in Hpriv. apply andb_true_iff in Hpriv.
  destruct Hpriv as [Hne Hone]. apply Z.leb_le in Hne. apply Nat.eqb_eq in Hone.
  split; [|split].
  - destruct (filter_both_shorter _ qualifies (carries a) (populations l))
      as [q [Hq [Hqq Hqa]]].
    { rewrite <- carriers_length, Hone. unfold count_qualifying, qualifying in Hne. lia. }
    assert (Hn1 : n1 q <> a).
    { intros E. unfold carries in Hqa. rewrite E, String.eqb_refl in Hqa. discriminate. }
    assert (Hb : In (n1 q) (segregating (populations l))).
    { apply segregating_In. exists q. auto. }
    pose proof (two_distinct_length _ _ _ _ Hb Hseg Hn1). lia.
  - split; [exact Hne|]. unfold count_qualifying, qualifying.
    pose proof (filter_length_le qualifies (populations l)). lia.
  - assert (Hin : In (pg, p) (carriers a (populations l))) by (rewrite Hc; left; reflexivity).
    apply carrier_qualifies in Hin. destruct Hin as [Hin _].
    apply In_numbered_from in Hin. destruct Hin as [Hle Hnth].
    assert (Hlt : (pg - 1 < List.length (populations l))%nat).
    { apply nth_error_Some. rewrite Hnth. discriminate. }
    lia.
Qed.

(** X14.  The total frequency of a row is the focal frequency, added to
    the zero the sum starts from, divided by the number of qualifying
    populations the row reports. *)
Theorem total_frequency_of_row (c : carried) (l : site_line) :
  Forall (fun row =>
            o_total_frequency row =
            PrimFloat.div (PrimFloat.add PrimFloat.zero (o_focal_frequency row))
                          (double_of_int (o_ne_pops row)))
         (rows_of_line c l).
Proof.
  rewrite rows_of_line_eq. apply Forall_forall. intros row Hrow.
  apply in_map_iff in Hrow. destruct Hrow as [a [<- Ha]].
  apply filter_In in Ha. destruct Ha as [_ Hpriv].
  destruct (is_private_carrier a _ Hpriv) as [pg [p Hc]].
  unfold print_entry. rewrite (private_entry_of_eq _ l a pg p Hc). simpl.
  rewrite scan_line_ne_pops. unfold mean_frequency, recorded_freqs.
  rewrite Hc. reflexivity.
Qed.

(** X15.  The minor allele frequency of a row is not above its total
    frequency: the total frequency is never strictly smaller. *)
Theorem maf_not_above_total_frequency (c : carried) (l : site_line) :
  Forall (fun row => PrimFloat.ltb (o_total_frequency row) (o_MAF row) = false)
         (rows_of_line c l).
Proof.
  rewrite rows_of_line_eq. apply Forall_forall. intros row Hrow.
  apply in_map_iff in Hrow. destruct Hrow as [a [<- Ha]].
  apply filter_In in Ha. destruct Ha as [Hseg Hpriv].
  destruct (is_private_carrier a _ Hpriv) as [pg [p Hc]].
  unfold print_entry. rewrite (private_entry_of_eq _ l a pg p Hc). simpl.
  destruct (segregating (populations l)) as [|a0 rest] eqn:E; [contradiction|].
  rewrite (report_line_maf _ _ l a0 rest E).
  apply running_min_lower.
  destruct Hseg as [<- | Hin]; [left; reflexivity|].
  right. apply in_map_iff. exists a. split; [reflexivity | exact Hin].
Qed.

(** ** The total coverage *)

Lemma wrapped_sum (ps : list population) (acc : Z) :
  Forall (fun p => 0 <= pop_cov p) ps ->
  0 <= acc ->
  acc + fold_right Z.add 0 (map pop_cov ps) < 2 ^ 31 ->
  fold_left (fun a p => int_wrap (a + pop_cov p)) ps acc =
  acc + fold_right Z.add 0 (map pop_cov ps).
Proof.
  intros Hpos. revert acc. induction Hpos as [|p ps Hp Hps IH]; intros acc Hacc Hsum; simpl.
  - lia.
  - simpl in Hsum.
    assert (Hrest : 0 <= fold_right Z.add 0 (map pop_cov ps)).
    { clear -Hps. induction Hps as [|q qs Hq Hqs IHq]; simpl; lia. }
    assert (Hw : int_wrap (acc + pop_cov p) = acc + pop_cov p).
    { unfold int_wrap. rewrite Z.mod_small by lia. lia. }
    rewrite Hw, IH by lia. lia.
Qed.

(** X16.  When the coverages of a line are not negative and their sum
    is below 2^31, the total coverage is the sum of the coverages of all
    the populations of the line, qualifying or not, and every row of the
    line reports it. *)
Theorem total_coverage_is_the_sum (c : carried) (l : site_line) :
  Forall (fun p => 0 <= pop_cov p) (populations l) ->
  fold_right Z.add 0 (map pop_cov (populations l)) < 2 ^ 31 ->
  tot_cov (scan_line (Nc_prev c) l) = fold_right Z.add 0 (map pop_cov (populations l)) /\
  Forall (fun row => o_tot_cov row = fold_right Z.add 0 (map pop_cov (populations l)))
         (rows_of_line c l).
Proof.
  intros Hpos Hsum.
  assert (Htot : tot_cov (scan_line (Nc_prev c) l)
                 = fold_right Z.add 0 (map pop_cov (populations l))).
  { rewrite scan_line_tot_cov. unfold total_coverage.
    rewrite wrapped_sum; [lia | exact Hpos | lia | lia]. }
  split; [exact Htot|].
  rewrite rows_of_line_eq. apply Forall_forall. intros row Hrow.
  apply in_map_iff in Hrow. destruct Hrow as [a [<- _]]. simpl. exact Htot.
Qed.

(** ** The order of the populations *)

Lemma filter_length_permutation (A : Type) (f : A -> bool) (xs ys : list A) :
  Permutation xs ys -> List.length (filter f xs) = List.length (filter f ys).
Proof.
  induction 1 as [|x xs ys Hp IH|x y xs|xs ys zs H1 IH1 H2 IH2]; simpl.
  - reflexivity.
  - destruct (f x); simpl; rewrite IH; reflexivity.
  - destruct (f x), (f y); reflexivity.
  - rewrite IH1. exact IH2.
Qed.

Lemma segregating_permutation (ps ps' : list population) (a : string) :
  Permutation ps ps' -> In a (segregating ps) -> In a (segregating ps').
Proof.
  intros Hp Hin. apply segregating_In in Hin. apply segregating_In.
  destruct Hin as [p [Hin H]]. exists p. split; [|exact H].
  apply (Permutation_in _ Hp Hin).
Qed.

Lemma is_private_permutation (ps ps' : list population) (a : string) :
  Permutation ps ps' -> is_private a ps = is_private a ps'.
Proof.
  intros Hp. unfold is_private, count_qualifying, qualifying.
  rewrite !carriers_length.
  rewrite (filter_length_permutation _ qualifies _ _ Hp).
  rewrite (filter_length_permutation _ (fun p => qualifies p && carries a p) _ _ Hp).
  reflexivity.
Qed.

(** X17.  Which alleles are private does not depend on the order of the
    populations in the line: two lines with the same populations in
    another order have rows for the same alleles. *)
Theorem private_alleles_ignore_order (c c' : carried) (l l' : site_line) (a : string) :
  Permutation (populations l) (populations l') ->
  In a (map o_private_allele (rows_of_line c l)) <->
  In a (map o_private_allele (rows_of_line c' l')).
Proof.
  intros Hp. rewrite !rows_alleles, !filter_In.
  rewrite (is_private_permutation _ _ a Hp).
  split; intros [Hseg Hpriv]; (split; [|exact Hpriv]).
  - apply (segregating_permutation _ _ a Hp Hseg).
  - apply (segregating_permutation _ _ a (Permutation_sym Hp) Hseg).
Qed.

(** ** The loop over the lines *)

Lemma read_cells_length (cells : list population) (e : string) (got : list read_population) :
  List.length (fst (read_cells e cells got)) = List.length cells.
Proof.
  revert e got. induction cells as [|k cells IH]; intros e got; [reflexivity|].
  cbn [read_cells].
  specialize (IH (assign (got_best_error (hd untouched got)) e) (tl got)).
  destruct (read_cells (assign (got_best_error (hd untouched got)) e) cells (tl got))
    as [ps e'].
  simpl in *. rewrite IH. reflexivity.
Qed.

Lemma run_line_cells_length (v : variables) (g : read_line) :
  List.length (v_cells (snd (run_line v g))) = List.length (v_cells v).
Proof.
  unfold run_line, read_variables.
  pose proof (read_cells_length (v_cells v) (v_best_error v) (got_populations g)) as H.
  destruct (read_cells (v_best_error v) (v_cells v) (got_populations g)) as [ps e].
  cbn [v_carried v_cells line_of v_scaffold v_site v_ref_nuc v_best_error].
  destruct (process_line _ _) as [rows c']. exact H.
Qed.

(** When every variable of the populations is read, the cells hold what
    was read and nothing of what they held. *)
Lemma read_cells_complete (cells : list population) (e : string)
    (got : list read_population) :
  (List.length cells <= List.length got)%nat ->
  forallb all_read (firstn (List.length cells) got) = true ->
  fst (read_cells e cells got) = map population_read (firstn (List.length cells) got).
Proof.
  revert e got. induction cells as [|k cells IH]; intros e got Hlen Hall; [reflexivity|].
  destruct got as [|g got]; [simpl in Hlen; lia|].
  cbn [List.length firstn forallb] in Hall.
  apply andb_true_iff in Hall. destruct Hall as [Hg Hall].
  cbn [read_cells hd tl List.length firstn map].
  specialize (IH (assign (got_best_error g) e) got).
  destruct (read_cells (assign (got_best_error g) e) cells got) as [ps e'].
  cbn [fst] in *. rewrite IH by (simpl in Hlen; (lia || exact Hall)).
  f_equal. destruct g as [[?|] [?|] [?|] [?|] [?|] [?|] [?|] [?|] [?|]];
    try discriminate. reflexivity.
Qed.

Lemma line_of_read_complete (v : variables) (g : read_line) :
  complete_line (List.length (v_cells v)) g = true ->
  line_of (read_variables v g) = line_read (List.length (v_cells v)) g.
Proof.
  unfold complete_line, read_variables, line_read, line_of. intros H.
  destruct (got_scaffold g) as [sc|]; [|discriminate].
  destruct (got_site g) as [si|]; [|discriminate].
  destruct (got_ref_nuc g) as [rn|]; [|discriminate].
  apply andb_true_iff in H. destruct H as [Hlen Hall]. apply Nat.leb_le in Hlen.
  pose proof (read_cells_complete (v_cells v) (v_best_error v) (got_populations g)
                Hlen Hall) as Hcells.
  destruct (read_cells (v_best_error v) (v_cells v) (got_populations g)) as [ps e].
  cbn [fst] in Hcells. subst ps. reflexivity.
Qed.

(** On an empty line the cells keep what they held. *)
Lemma read_cells_blank (cells : list population) (e : string) :
  read_cells e cells [] = (map (with_best_error e) cells, e).
Proof.
  induction cells as [|k cells IH]; [reflexivity|].
  cbn [read_cells hd tl untouched got_best_error assign]. rewrite IH. reflexivity.
Qed.

(** [best_error] is read and never used. *)
Lemma read_pops_with_best_error (e : string) (ps : list population) (pg : nat) (st : scan) :
  read_pops pg (map (with_best_error e) ps) st = read_pops pg ps st.
Proof.
  revert pg st. induction ps as [|p ps IH]; intros pg st; [reflexivity|].
  cbn [map read_pops]. rewrite IH. reflexivity.
Qed.

Lemma tally_pops_with_best_error (e : string) (arr : nat -> double) (a : string)
    (ps : list population) (pg : nat) (t : tally) :
  tally_pops arr a pg (map (with_best_error e) ps) t = tally_pops arr a pg ps t.
Proof.
  revert pg t. induction ps as [|p ps IH]; intros pg t; [reflexivity|].
  cbn [map tally_pops]. rewrite IH. reflexivity.
Qed.

Lemma examine_alleles_with_best_error (e : string) (st : scan) (ps : list population)
    (als : list string) (ag : nat) (r : report) :
  examine_alleles st (map (with_best_error e) ps) ag als r =
  examine_alleles st ps ag als r.
Proof.
  revert ag r. induction als as [|a als IH]; intros ag r; [reflexivity|].
  cbn [examine_alleles]. rewrite IH. f_equal.
  unfold examine_allele, private_test, private_entry_of, mean_freq_a, num_pops_a,
    tally_allele.
  rewrite !tally_pops_with_best_error. reflexivity.
Qed.

Lemma process_line_with_best_error (e : string) (c : carried)
    (sc : string) (si : Z) (rn : string) (ps : list population) :
  process_line c (mk_site_line sc si rn (map (with_best_error e) ps)) =
  process_line c (mk_site_line sc si rn ps).
Proof.
  unfold process_line, report_line, scan_line. cbn [populations].
  rewrite !read_pops_with_best_error, !examine_alleles_with_best_error.
  reflexivity.
Qed.

(** X18.  On an input of which every line is read completely (three
    leading tokens and nine tokens for each population), the rows written
    are the rows of the lines, one line after the other, and the rows of a
    line are those of its own tokens: nothing the variables kept from the
    lines before changes them. *)
Theorem complete_lines_are_independent (v : variables) (gs : list read_line)
    (c0 : carried) :
  Forall (fun g => complete_line (List.length (v_cells v)) g = true) gs ->
  run_lines v gs =
  flat_map (fun g => rows_of_line c0 (line_read (List.length (v_cells v)) g)) gs.
Proof.
  revert v. induction gs as [|g gs IH]; intros v Hall; [reflexivity|].
  inversion Hall as [|g' gs' Hg Hgs]; subst.
  cbn [run_lines flat_map].
  pose proof (run_line_cells_length v g) as Hlen.
  assert (Hrows : fst (run_line v g)
                  = rows_of_line c0 (line_read (List.length (v_cells v)) g)).
  { unfold run_line. rewrite (line_of_read_complete v g Hg).
    rewrite (rows_of_line_independent c0 (v_carried (read_variables v g))).
    unfold rows_of_line. destruct (process_line _ _) as [rows c']. reflexivity. }
  destruct (run_line v g) as [rows v']. cbn [fst snd] in *.
  rewrite Hrows, (IH v') by (rewrite Hlen; exact Hgs).
  rewrite Hlen. reflexivity.
Qed.

Lemma read_variables_blank (v : variables) :
  line_of (read_variables v blank_line) =
    mk_site_line (v_scaffold v) (v_site v) (v_ref_nuc v)
      (map (with_best_error (v_best_error v)) (v_cells v)).
Proof.
  unfold read_variables. cbn [blank_line got_populations got_scaffold got_site
                              got_ref_nuc assign].
  rewrite read_cells_blank. reflexivity.
Qed.

Lemma run_line_rows (v : variables) (g : read_line) :
  fst (run_line v g) =
  rows_of_line (v_carried (read_variables v g)) (line_of (read_variables v g)).
Proof.
  unfold run_line, rows_of_line. destruct (process_line _ _) as [rows c']. reflexivity.
Qed.

(** What an iteration leaves in the variables a line is read into. *)
Lemma run_line_variables (v : variables) (g : read_line) :
  let v' := snd (run_line v g) in
  v_scaffold v' = v_scaffold (read_variables v g) /\
  v_site v' = v_site (read_variables v g) /\
  v_ref_nuc v' = v_ref_nuc (read_variables v g) /\
  v_best_error v' = v_best_error (read_variables v g) /\
  v_cells v' = v_cells (read_variables v g).
Proof.
  unfold run_line. destruct (process_line _ _) as [rows c']. repeat split.
Qed.

(** X19.  After any line, an empty line makes the program write the rows
    of that line once more: nothing is read, every variable keeps its
    value, and the analysis runs again on what the variables hold. *)
Theorem blank_line_repeats_rows (v : variables) (g : read_line) :
  fst (run_line (snd (run_line v g)) blank_line) = fst (run_line v g).
Proof.
  rewrite !run_line_rows, read_variables_blank.
  destruct (run_line_variables v g) as [Hsc [Hsi [Hrn [_ Hcells]]]].
  rewrite Hsc, Hsi, Hrn, Hcells.
  unfold rows_of_line at 1. rewrite process_line_with_best_error.
  apply (rows_of_line_independent _ _ (line_of (read_variables v g))).
Qed.

End Site.

(** * The example of the specification, and the properties at the examples *)

(** C8.  Two populations, the first with allele [A], [Nc] 25 and frequency
    0.9, the second with allele [T], [Nc] 22 and frequency 0.8, neither
    with a second allele, and a threshold of 20: the line yields two
    rows, [A] for population 1 with frequencies 0.9 and 0.45, then [T] for
    population 2 with frequencies 0.8 and 0.4, both with a minor allele
    frequency of 0.4.  The tokens are any that [atof] reads as these
    numbers; the other columns, the critical value and what the previous
    lines left do not matter. *)
Theorem two_fixed_populations_rows (cv : double) (atof : string -> double)
    (pow : double -> double -> double) (log10 : double -> double) (c : carried)
    (sc rn : string) (si covA covT : Z)
    (NcA pA NcT pT qA eA hA lA qT eT hT lT : string) :
  atof NcA = 25%float -> atof pA = 0.9%float ->
  atof NcT = 22%float -> atof pT = 0.8%float ->
  map (fun r => (o_private_allele r, o_id_pop r, o_focal_frequency r,
                 o_total_frequency r, o_MAF r))
      (rows_of_line 20%float cv atof pow log10 c
         (mk_site_line sc si rn
            [mk_population "A" "NA" covA NcA pA qA eA hA lA;
             mk_population "T" "NA" covT NcT pT qT eT hT lT]))
  = [("A"%string, 1%nat, 0.9%float, 0.45%float, 0.4%float);
     ("T"%string, 2%nat, 0.8%float, 0.4%float, 0.4%float)].
Proof.
  intros HA HpA HT HpT.
  unfold rows_of_line, process_line, report_line, scan_line.
  cbn -[PrimFloat.leb PrimFloat.ltb PrimFloat.add PrimFloat.div
        PrimFloat.sub PrimFloat.mul].
  rewrite !HA, !HT.
  cbn -[PrimFloat.add PrimFloat.div PrimFloat.sub PrimFloat.mul].
  rewrite ?HpA, ?HpT.
  unfold mean_freq_a, tally_allele.
  cbn -[PrimFloat.add PrimFloat.div PrimFloat.sub PrimFloat.mul].
  rewrite ?HpA, ?HpT.
  reflexivity.
Qed.

Lemma two_fixed_populations_rows_witness :
  map (fun r => (o_private_allele r, o_id_pop r, o_focal_frequency r,
                 o_total_frequency r, o_MAF r))
      (rows_of_line default_min_Nc default_cv atof_decimal
         (fun x _ => x) (fun x => x) first_line two_fixed_line)
  = [("A"%string, 1%nat, 0.9%float, 0.45%float, 0.4%float);
     ("T"%string, 2%nat, 0.8%float, 0.4%float, 0.4%float)].
Proof.
  apply (two_fixed_populations_rows default_cv atof_decimal
           (fun x _ => x) (fun x => x) first_line);
    vm_compute; reflexivity.
Defined.

(** C2 as stated fails on [failed_test_line]: [T] is segregating, the
    first population qualifies, its second allele is [T] and its statistic
    is not above the critical value, and yet it is the first carrier in
    the tally of [T], with its [freq2], 0.1, recorded and summed; with two
    carriers [T] is not private, and the line has a row for [A] only. *)
Lemma gate_ignored_in_aggregation :
  In "T"%string
     (alleles (scan_line default_min_Nc default_cv atof_decimal
                 (Nc_prev first_line) failed_test_line)) /\
  qualifies default_min_Nc atof_decimal pop_AT = true /\
  n2 pop_AT = "T"%string /\
  PrimFloat.ltb default_cv (atof_decimal (s_pol_llstat pop_AT)) = false /\
  tally_allele default_min_Nc atof_decimal
    (scan_line default_min_Nc default_cv atof_decimal
       (Nc_prev first_line) failed_test_line)
    (populations failed_test_line) "T"
  = mk_tally [1%nat; 2%nat]
      [atof_decimal (s_best_q pop_AT); atof_decimal (s_best_p pop_T_fixed)]
      (PrimFloat.add (PrimFloat.add PrimFloat.zero 0.1%float) 1%float) /\
  map o_private_allele
      (rows_of_line default_min_Nc default_cv atof_decimal
         (fun x _ => x) (fun x => x) first_line failed_test_line)
  = ["A"%string].
Proof.
  vm_compute. repeat split. right. left. reflexivity.
Qed.

Lemma allele2_recorded_without_gate_witness :
  In (1%nat, pop_AT) (numbered (populations failed_test_line)) /\
  qualifies default_min_Nc atof_decimal pop_AT = true /\
  admits_allele2 default_cv atof_decimal pop_AT = false /\
  In 1%nat
     (id_pop_a
        (tally_allele default_min_Nc atof_decimal
           (scan_line default_min_Nc default_cv atof_decimal
              (Nc_prev first_line) failed_test_line)
           (populations failed_test_line) "T")).
Proof.
  assert (Hin : In (1%nat, pop_AT) (numbered (populations failed_test_line)))
    by (left; reflexivity).
  assert (Hq : qualifies default_min_Nc atof_decimal pop_AT = true)
    by (vm_compute; reflexivity).
  split; [exact Hin|]. split; [exact Hq|]. split; [vm_compute; reflexivity|].
  destruct (allele2_recorded_without_gate default_min_Nc default_cv atof_decimal
              first_line failed_test_line 1%nat pop_AT "T" Hin Hq) as [H _].
  apply H. right. reflexivity.
Defined.

Lemma maf_total_is_minimum_witness :
  segregating default_min_Nc default_cv atof_decimal
    (populations two_fixed_line) <> [] /\
  (forall m,
     In m (map (fun a => mean_frequency default_min_Nc atof_decimal a
                           (populations two_fixed_line))
               (segregating default_min_Nc default_cv atof_decimal
                  (populations two_fixed_line))) ->
     PrimFloat.is_nan m = false) /\
  (forall m,
     In m (map (fun a => mean_frequency default_min_Nc atof_decimal a
                           (populations two_fixed_line))
               (segregating default_min_Nc default_cv atof_decimal
                  (populations two_fixed_line))) ->
     PrimFloat.leb
       (maf_prev (snd (process_line default_min_Nc default_cv atof_decimal
                         (fun x _ => x) (fun x => x) first_line two_fixed_line)))
       m = true).
Proof.
  assert (H : segregating default_min_Nc default_cv atof_decimal
                (populations two_fixed_line) <> [])
    by (vm_compute; discriminate).
  assert (Hnan : forall m,
            In m (map (fun a => mean_frequency default_min_Nc atof_decimal a
                                  (populations two_fixed_line))
                      (segregating default_min_Nc default_cv atof_decimal
                         (populations two_fixed_line))) ->
            PrimFloat.is_nan m = false).
  { intros m Hm. vm_compute in Hm.
    destruct Hm as [<- | [<- | []]]; vm_compute; reflexivity. }
  split; [exact H|]. split; [exact Hnan|].
  destruct (maf_total_is_minimum default_min_Nc default_cv atof_decimal
              (fun x _ => x) (fun x => x) first_line two_fixed_line H Hnan)
    as [_ [_ [Hle _]]].
  exact Hle.
Defined.

(** C7 as stated fails when a mean frequency is NaN.  On
    [nan_first_line] the mean of [A] is NaN and the mean of [T] is 0.4;
    the running minimum starts at NaN and stays there, since [0.4 < NaN]
    is false: both rows report a minor allele frequency of NaN, which is
    not below or equal to the mean 0.4.  With the same two populations
    the other way round the rows report 0.4. *)
Lemma maf_total_not_minimum_with_nan :
  map (fun r => (o_private_allele r, o_total_frequency r, o_MAF r))
      (rows_of_line default_min_Nc default_cv atof_nan
         (fun x _ => x) (fun x => x) first_line nan_first_line)
  = [("A"%string, PrimFloat.nan, PrimFloat.nan);
     ("T"%string, 0.4%float, PrimFloat.nan)] /\
  In 0.4%float
     (map (fun a => mean_frequency default_min_Nc atof_nan a
                      (populations nan_first_line))
          (segregating default_min_Nc default_cv atof_nan
             (populations nan_first_line))) /\
  PrimFloat.leb
    (maf_prev (snd (process_line default_min_Nc default_cv atof_nan
                      (fun x _ => x) (fun x => x) first_line nan_first_line)))
    0.4%float = false /\
  map (fun r => (o_private_allele r, o_total_frequency r, o_MAF r))
      (rows_of_line default_min_Nc default_cv atof_nan
         (fun x _ => x) (fun x => x) first_line nan_last_line)
  = [("T"%string, 0.4%float, 0.4%float);
     ("A"%string, PrimFloat.nan, 0.4%float)].
Proof.
  vm_compute. repeat split. right. left. reflexivity.
Qed.

Lemma division_by_ne_pops_guarded_witness :
  In "A"%string
     (alleles (scan_line default_min_Nc default_cv atof_decimal
                 (Nc_prev first_line) two_fixed_line)) /\
  1 <= ne_pops (scan_line default_min_Nc default_cv atof_decimal
                  (Nc_prev first_line) two_fixed_line)
    <= Z.of_nat (List.length (populations two_fixed_line)).
Proof.
  assert (H : In "A"%string
                (alleles (scan_line default_min_Nc default_cv atof_decimal
                            (Nc_prev first_line) two_fixed_line)))
    by (vm_compute; left; reflexivity).
  split; [exact H|].
  destruct (division_by_ne_pops_guarded default_min_Nc default_cv atof_decimal
              first_line two_fixed_line "A" H) as [Hn _].
  exact Hn.
Defined.

Lemma threshold_gating_witness :
  populations low_Nc_line = [pop_A] ++ pop_low :: [pop_T] /\
  PrimFloat.ltb (atof_decimal (s_Nc pop_low)) default_min_Nc = true /\
  forall a,
    ~ In 2%nat
        (id_pop_a
           (tally_allele default_min_Nc atof_decimal
              (scan_line default_min_Nc default_cv atof_decimal
                 (Nc_prev first_line) low_Nc_line)
              (populations low_Nc_line) a)).
Proof.
  assert (Hlt : PrimFloat.ltb (atof_decimal (s_Nc pop_low)) default_min_Nc = true)
    by (vm_compute; reflexivity).
  split; [reflexivity|]. split; [exact Hlt|].
  destruct (threshold_gating default_min_Nc default_cv atof_decimal
              first_line low_Nc_line [pop_A] [pop_T] pop_low eq_refl
              (or_intror Hlt))
    as (_ & _ & _ & _ & _ & _ & H & _).
  exact H.
Defined.

Lemma significance_gate_witness :
  populations failed_test_line = [] ++ pop_AT :: [pop_T_fixed] /\
  qualifies default_min_Nc atof_decimal pop_AT = true /\
  n2 pop_AT <> NA /\
  (PrimFloat.ltb default_cv (atof_decimal (s_pol_llstat pop_AT)) = false ->
   alleles (scan_pop default_min_Nc default_cv atof_decimal 1 pop_AT
              (scan_init (Nc_prev first_line)))
   = add_allele [] (n1 pop_AT)).
Proof.
  assert (Hq : qualifies default_min_Nc atof_decimal pop_AT = true)
    by (vm_compute; reflexivity).
  assert (Hn : n2 pop_AT <> NA) by (vm_compute; discriminate).
  split; [reflexivity|]. split; [exact Hq|]. split; [exact Hn|].
  destruct (significance_gate default_min_Nc default_cv atof_decimal
              first_line failed_test_line [] [pop_T_fixed] pop_AT eq_refl Hq Hn)
    as (_ & _ & H & _).
  exact H.
Defined.

Lemma allele1_takes_precedence_witness :
  In (1%nat, pop_AA) (numbered (populations same_alleles_line)) /\
  qualifies default_min_Nc atof_decimal pop_AA = true /\
  n1 pop_AA = "A"%string /\ n2 pop_AA = "A"%string /\
  count_occ Nat.eq_dec
    (id_pop_a
       (tally_allele default_min_Nc atof_decimal
          (scan_line default_min_Nc default_cv atof_decimal
             (Nc_prev first_line) same_alleles_line)
          (populations same_alleles_line) "A")) 1%nat = 1%nat.
Proof.
  assert (Hin : In (1%nat, pop_AA) (numbered (populations same_alleles_line)))
    by (left; reflexivity).
  assert (Hq : qualifies default_min_Nc atof_decimal pop_AA = true)
    by (vm_compute; reflexivity).
  split; [exact Hin|]. split; [exact Hq|]. split; [reflexivity|].
  split; [reflexivity|].
  destruct (allele1_takes_precedence default_min_Nc default_cv atof_decimal
              first_line same_alleles_line 1%nat pop_AA "A" Hin Hq eq_refl eq_refl)
    as (_ & H & _).
  exact H.
Defined.

(** ** Two more sites of the specification *)

(** A single qualifying population: its allele has one carrier, and the
    line has no row. *)
Example single_population_no_row :
  rows_of_line default_min_Nc default_cv atof_decimal
    (fun x _ => x) (fun x => x) first_line single_line = [] /\
  num_pops_a default_min_Nc atof_decimal
    (scan_line default_min_Nc default_cv atof_decimal (Nc_prev first_line) single_line)
    (populations single_line) "A" = 1.
Proof. vm_compute. split; reflexivity. Qed.

(** A population below the threshold alone: nothing qualifies, there is
    no allele, and the coverage is counted. *)
Example below_threshold_alone :
  let st := scan_line default_min_Nc default_cv atof_decimal
              (Nc_prev first_line) only_low_line in
  ne_pops st = 0 /\ alleles st = [] /\ tot_cov st = 7 /\
  rows_of_line default_min_Nc default_cv atof_decimal
    (fun x _ => x) (fun x => x) first_line only_low_line = [].
Proof. vm_compute. repeat split. Qed.

(** * The options of the command line *)

Section Options.

Variable sscanf_lf : string -> option double.

(** The loop reads a complete run to its end and goes on with what
    follows from the settings the run gave. *)
Lemma read_options_complete (pre : list string) :
  complete_options pre ->
  forall s, exists s',
    read_options sscanf_lf pre s = Some s' /\
    (print_help s = true -> print_help s' = true) /\
    (unknown_option s' = unknown_option s) /\
    forall rest, read_options sscanf_lf (pre ++ rest) s = read_options sscanf_lf rest s'.
Proof.
  induction 1 as [|rest Hc IH|flag v rest Hflag Hc IH]; intros s.
  - exists s. repeat split; auto.
  - simpl. destruct (IH (mk_settings (in_file_name s) (out_file_name s)
                           (opt_min_Nc s) (opt_cv s) true (unknown_option s)))
      as [s' [H1 [H2 [H3 H4]]]].
    exists s'. repeat split; auto.
  - simpl in Hflag.
    destruct Hflag as [<- | [<- | [<- | [<- | []]]]]; simpl;
      match goal with
      | |- context [read_options sscanf_lf rest ?s0] =>
          destruct (IH s0) as [s' [H1 [H2 [H3 H4]]]]
      end;
      exists s'; repeat split; auto.
Qed.

(** X1.  An argument that starts with a dash and is none of the five
    options ends the program with the usage message and status 1, and is
    the option reported, whatever follows it and whatever complete options
    come before it. *)
Theorem unknown_option_is_fatal (pre post : list string) (bad : string) :
  complete_options pre ->
  starts_with_dash bad = true ->
  ~ In bad ["-h"%string; "-in"%string; "-out"%string; "-min_Nc"%string; "-cv"%string] ->
  read_settings sscanf_lf (pre ++ bad :: post) = Usage_exit_1 (Some bad).
Proof.
  intros Hpre Hdash Hbad. unfold read_settings.
  destruct (read_options_complete pre Hpre default_settings) as [s' [_ [_ [_ Happ]]]].
  rewrite Happ. simpl. rewrite Hdash.
  repeat match goal with
  | |- context [String.eqb bad ?f] =>
      destruct (String.eqb_spec bad f) as [E | _];
      [exfalso; apply Hbad; rewrite E; simpl; tauto|]
  end.
  reflexivity.
Qed.

(** X2.  The first argument that does not start with a dash ends the
    reading of the options: it and all the arguments after it, options
    included, are ignored without a message. *)
Theorem options_end_at_first_plain_argument (pre post : list string) (a : string) :
  complete_options pre ->
  starts_with_dash a = false ->
  read_settings sscanf_lf (pre ++ a :: post) = read_settings sscanf_lf pre.
Proof.
  intros Hpre Hdash. unfold read_settings.
  destruct (read_options_complete pre Hpre default_settings) as [s' [Hs' [_ [_ Happ]]]].
  rewrite Happ, Hs'. simpl. rewrite Hdash. reflexivity.
Qed.

(** X3.  A threshold whose argument [sscanf] cannot read as a number is
    skipped without a message: the program starts as if the option and
    its argument were not there. *)
Theorem unreadable_threshold_is_skipped (pre rest : list string) (flag v : string) :
  complete_options pre ->
  flag = "-min_Nc"%string \/ flag = "-cv"%string ->
  sscanf_lf v = None ->
  read_settings sscanf_lf (pre ++ flag :: v :: rest) =
  read_settings sscanf_lf (pre ++ rest).
Proof.
  intros Hpre Hflag Hv. unfold read_settings.
  destruct (read_options_complete pre Hpre default_settings) as [s' [_ [_ [_ Happ]]]].
  rewrite !Happ. destruct Hflag as [-> | ->]; simpl; rewrite Hv; simpl;
    destruct s'; reflexivity.
Qed.

Lemma read_options_keeps_thresholds (post : list string) :
  complete_options post ->
  forall s s', read_options sscanf_lf post s = Some s' ->
  (~ In "-min_Nc"%string post -> opt_min_Nc s' = opt_min_Nc s) /\
  (~ In "-cv"%string post -> opt_cv s' = opt_cv s).
Proof.
  induction 1 as [|rest Hc IH|flag v rest Hflag Hc IH]; intros s s' Hs'.
  - simpl in Hs'. inversion Hs'. split; reflexivity.
  - simpl in Hs'. destruct (IH _ _ Hs') as [H1 H2].
    split; intros Hn; [rewrite H1 | rewrite H2]; try reflexivity;
      intros Hin; apply Hn; right; exact Hin.
  - simpl in Hflag.
    destruct Hflag as [<- | [<- | [<- | [<- | []]]]]; simpl in Hs';
      destruct (IH _ _ Hs') as [H1 H2];
      split; intros Hn;
        try (rewrite H1; [reflexivity | intros Hin; apply Hn; right; right; exact Hin]);
        try (rewrite H2; [reflexivity | intros Hin; apply Hn; right; right; exact Hin]);
        exfalso; apply Hn; left; reflexivity.
Qed.

(** X4.  Of several values given for a threshold the last one that
    [sscanf] reads is the one the program uses: after a readable
    [-min_Nc] (or [-cv]) followed by complete options that do not name
    that threshold again, the setting is the number read. *)
Theorem last_threshold_wins (pre post : list string) (v : string) (x : double) :
  complete_options pre ->
  complete_options post ->
  sscanf_lf v = Some x ->
  (~ In "-min_Nc"%string post ->
   exists s, read_options sscanf_lf (pre ++ "-min_Nc"%string :: v :: post) default_settings
             = Some s /\ opt_min_Nc s = x) /\
  (~ In "-cv"%string post ->
   exists s, read_options sscanf_lf (pre ++ "-cv"%string :: v :: post) default_settings
             = Some s /\ opt_cv s = x).
Proof.
  intros Hpre Hpost Hv.
  destruct (read_options_complete pre Hpre default_settings) as [s' [_ [_ [_ Happ]]]].
  split; intros Hn; rewrite Happ; simpl; rewrite Hv; simpl;
    match goal with
    | |- context [read_options sscanf_lf post ?s0] =>
        destruct (read_options_complete post Hpost s0) as [s2 [Hs2 _]];
        destruct (read_options_keeps_thresholds post Hpost s0 s2 Hs2) as [H1 H2]
    end;
    exists s2; (split; [exact Hs2|]).
  - rewrite (H1 Hn). reflexivity.
  - rewrite (H2 Hn). reflexivity.
Qed.

(** Once asked for, the usage message is not taken back. *)
Lemma read_options_keeps_help (n : nat) :
  forall args s s',
    (List.length args <= n)%nat ->
    print_help s = true ->
    read_options sscanf_lf args s = Some s' ->
    print_help s' = true.
Proof.
  induction n as [|n IH]; intros args s s' Hlen Hh Hs'.
  - destruct args; [|simpl in Hlen; lia]. simpl in Hs'. inversion Hs'; subst. exact Hh.
  - destruct args as [|a rest]; [simpl in Hs'; inversion Hs'; subst; exact Hh|].
    simpl in Hlen. simpl in Hs'.
    destruct (starts_with_dash a); [|inversion Hs'; subst; exact Hh].
    destruct (String.eqb a "-h").
    { eapply (IH rest); [| |exact Hs']; [lia | reflexivity]. }
    repeat match type of Hs' with
    | (if String.eqb a ?f then _ else _) = _ =>
        destruct (String.eqb a f);
        [ destruct rest as [|v rest'];
          [ try discriminate; inversion Hs'; subst; exact Hh
          | eapply (IH rest'); [| |exact Hs']; [simpl in Hlen; lia | exact Hh] ]
        | ]
    end.
    inversion Hs'; subst. reflexivity.
Qed.

(** X5.  After [-h] the program does not start, whatever comes next: it
    prints the usage message and leaves with status 1, unless a threshold
    option without its argument comes last and the null pointer is read
    first. *)
Theorem help_is_never_taken_back (pre post : list string) :
  complete_options pre ->
  forall s, read_settings sscanf_lf (pre ++ "-h"%string :: post) <> Start s.
Proof.
  intros Hpre s. unfold read_settings.
  destruct (read_options_complete pre Hpre default_settings) as [s' [_ [_ [_ Happ]]]].
  rewrite Happ. simpl.
  match goal with
  | |- context [read_options sscanf_lf post ?s0] =>
      destruct (read_options sscanf_lf post s0) as [s2|] eqn:E;
      [ rewrite (read_options_keeps_help (List.length post) post s0 s2 (le_n _) eq_refl E)
      | ]
  end; discriminate.
Qed.

(** X6.  An option that needs an argument and comes last takes the null
    pointer that ends [argv]: [-min_Nc] and [-cv] hand it to [sscanf], and
    [-in] and [-out] leave the file name null, without a message. *)
Theorem option_without_argument (pre : list string) :
  complete_options pre ->
  read_settings sscanf_lf (pre ++ ["-min_Nc"%string]) = Null_pointer_read /\
  read_settings sscanf_lf (pre ++ ["-cv"%string]) = Null_pointer_read /\
  (exists s, read_options sscanf_lf (pre ++ ["-in"%string]) default_settings = Some s /\
             in_file_name s = None) /\
  (exists s, read_options sscanf_lf (pre ++ ["-out"%string]) default_settings = Some s /\
             out_file_name s = None).
Proof.
  intros Hpre. unfold read_settings.
  destruct (read_options_complete pre Hpre default_settings) as [s' [_ [_ [_ Happ]]]].
  rewrite !Happ. simpl. repeat split; eexists; split; reflexivity.
Qed.

End Options.

Lemma unknown_option_is_fatal_witness :
  read_settings sscanf_decimal
    (["-min_Nc"; "30"]%string ++ "-verbose"%string :: ["-in"; "sites.txt"]%string)
  = Usage_exit_1 (Some "-verbose"%string).
Proof.
  apply (unknown_option_is_fatal sscanf_decimal).
  - apply complete_valued; [simpl; tauto | apply complete_nil].
  - reflexivity.
  - simpl. intros [H | [H | [H | [H | [H | []]]]]]; discriminate.
Defined.

Lemma options_end_at_first_plain_argument_witness :
  read_settings sscanf_decimal
    (["-cv"; "3.841"]%string ++ "sites.txt"%string :: ["-min_Nc"; "30"]%string)
  = read_settings sscanf_decimal ["-cv"; "3.841"]%string.
Proof.
  apply (options_end_at_first_plain_argument sscanf_decimal).
  - apply complete_valued; [simpl; tauto | apply complete_nil].
  - reflexivity.
Defined.

Lemma unreadable_threshold_is_skipped_witness :
  read_settings sscanf_decimal
    (["-in"; "sites.txt"]%string ++ "-min_Nc"%string :: "thirty"%string :: ["-cv"; "3.841"]%string)
  = read_settings sscanf_decimal (["-in"; "sites.txt"]%string ++ ["-cv"; "3.841"]%string).
Proof.
  apply (unreadable_threshold_is_skipped sscanf_decimal).
  - apply complete_valued; [simpl; tauto | apply complete_nil].
  - left. reflexivity.
  - reflexivity.
Defined.

Lemma last_threshold_wins_witness :
  exists s,
    read_options sscanf_decimal
      (["-min_Nc"; "10"]%string ++ "-min_Nc"%string :: "30"%string :: ["-out"; "private.txt"]%string)
      default_settings = Some s /\
    opt_min_Nc s = 30%float.
Proof.
  assert (Hpre : complete_options ["-min_Nc"; "10"]%string)
    by (apply complete_valued; [simpl; tauto | apply complete_nil]).
  assert (Hpost : complete_options ["-out"; "private.txt"]%string)
    by (apply complete_valued; [simpl; tauto | apply complete_nil]).
  destruct (last_threshold_wins sscanf_decimal _ _ "30"%string 30%float
              Hpre Hpost eq_refl) as [H _].
  apply H. simpl. intros [E | [E | []]]; discriminate.
Defined.

Lemma help_is_never_taken_back_witness :
  read_settings sscanf_decimal
    (["-in"; "sites.txt"]%string ++ "-h"%string :: ["-cv"; "3.841"]%string)
  <> Start default_settings.
Proof.
  apply (help_is_never_taken_back sscanf_decimal).
  apply complete_valued; [simpl; tauto | apply complete_nil].
Defined.

Lemma option_without_argument_witness :
  read_settings sscanf_decimal (["-in"; "sites.txt"]%string ++ ["-min_Nc"]%string)
  = Null_pointer_read.
Proof.
  destruct (option_without_argument sscanf_decimal ["-in"; "sites.txt"]%string) as [H _].
  - apply complete_valued; [simpl; tauto | apply complete_nil].
  - exact H.
Defined.

(** * The header *)

Lemma string_length_app (a b : string) :
  String.length (a ++ b) = (String.length a + String.length b)%nat.
Proof. induction a as [|c a IH]; simpl; [reflexivity | rewrite IH; reflexivity]. Qed.

Lemma skip_spaces_blank (g x : string) :
  all_space g = true -> skip_spaces (g ++ x) = skip_spaces x.
Proof.
  induction g as [|c g IH]; simpl; [reflexivity|].
  intros H. apply andb_true_iff in H. destruct H as [Hc Hg].
  rewrite Hc. apply IH, Hg.
Qed.

Lemma skip_spaces_all (t : string) : all_space t = true -> skip_spaces t = EmptyString.
Proof.
  induction t as [|c t IH]; simpl; [reflexivity|].
  intros H. apply andb_true_iff in H. destruct H as [Hc Ht]. rewrite Hc. apply IH, Ht.
Qed.

Lemma read_word_word (w x : string) :
  no_space w = true -> blank_start x = true -> read_word (w ++ x) = (w, x).
Proof.
  intros Hw Hx. induction w as [|c w IH]; simpl.
  - destruct x as [|d x]; [reflexivity|]. simpl in Hx. simpl. rewrite Hx. reflexivity.
  - simpl in Hw. apply andb_true_iff in Hw. destruct Hw as [Hc Hw].
    apply negb_true_iff in Hc. rewrite Hc, (IH Hw). reflexivity.
Qed.

Lemma skip_spaces_word (w x : string) :
  is_word w = true -> skip_spaces (w ++ x) = (w ++ x)%string.
Proof.
  unfold is_word. destruct w as [|c w]; [discriminate|]. simpl.
  intros H. apply andb_true_iff in H. destruct H as [Hc _].
  apply negb_true_iff in Hc. rewrite Hc. reflexivity.
Qed.

Lemma extract_word (g w x str : string) :
  all_space g = true -> is_word w = true -> blank_start x = true ->
  extract_string (mk_istringstream (g ++ w ++ x) false false) str =
  (mk_istringstream x (is_empty x) false, w).
Proof.
  intros Hg Hw Hx. unfold extract_string.
  cbn [good eofbit failbit unread negb andb].
  rewrite (skip_spaces_blank g _ Hg), (skip_spaces_word w x Hw).
  pose proof Hw as Hw'. unfold is_word in Hw'.
  apply andb_true_iff in Hw'. destruct Hw' as [_ Hns].
  destruct w as [|c w]; [discriminate|].
  change ((String c w ++ x)%string) with (String c (w ++ x)). cbv iota beta.
  change (String c (w ++ x)) with ((String c w ++ x)%string).
  rewrite (read_word_word _ _ Hns Hx). reflexivity.
Qed.

Lemma extract_blank (t str : string) :
  all_space t = true ->
  extract_string (mk_istringstream t false false) str =
  (mk_istringstream EmptyString true true, str).
Proof.
  intros Ht. unfold extract_string. cbn [good eofbit failbit unread negb andb].
  rewrite (skip_spaces_all t Ht). reflexivity.
Qed.

Lemma extract_at_end (x str : string) (f : bool) :
  extract_string (mk_istringstream x true f) str =
  (mk_istringstream x true true, str).
Proof. reflexivity. Qed.

Lemma is_gap_all_space (g : string) : is_gap g = true -> all_space g = true.
Proof. unfold is_gap. intros H. apply andb_true_iff in H. tauto. Qed.

Lemma is_gap_blank_start (g x : string) : is_gap g = true -> blank_start (g ++ x) = true.
Proof.
  unfold is_gap. destruct g as [|c g]; [discriminate|]. simpl.
  intros H. apply andb_true_iff in H. tauto.
Qed.

Lemma all_space_blank_start (t : string) : all_space t = true -> blank_start t = true.
Proof. destruct t as [|c t]; simpl; [reflexivity|]. intros H. apply andb_true_iff in H. tauto. Qed.

Lemma spell_blank_start (r : list (string * string)) (trail : string) :
  gapped r = true -> all_space trail = true -> blank_start (spell r trail) = true.
Proof.
  intros Hr Ht. destruct r as [|[g w] r]; simpl.
  - apply all_space_blank_start, Ht.
  - simpl in Hr. apply andb_true_iff in Hr. destruct Hr as [Hgw _].
    apply andb_true_iff in Hgw. destruct Hgw as [Hg _].
    apply is_gap_blank_start, Hg.
Qed.

Lemma spell_not_empty (g w : string) (r : list (string * string)) (trail : string) :
  is_word w = true -> is_empty (spell ((g, w) :: r) trail) = false.
Proof.
  unfold is_word. simpl. destruct w as [|c w]; [discriminate|]. intros _.
  destruct g; reflexivity.
Qed.

(** One word read from a line. *)
Lemma extract_spelt (g w : string) (r : list (string * string)) (trail str : string) :
  all_space g = true -> is_word w = true -> gapped r = true ->
  all_space trail = true ->
  extract_string (mk_istringstream (spell ((g, w) :: r) trail) false false) str =
  (mk_istringstream (spell r trail) (is_empty (spell r trail)) false, w).
Proof.
  intros Hg Hw Hr Ht. simpl spell.
  apply extract_word; [exact Hg | exact Hw | apply spell_blank_start; assumption].
Qed.

Lemma gapped_cons (g w : string) (r : list (string * string)) :
  gapped ((g, w) :: r) = true ->
  all_space g = true /\ is_word w = true /\ gapped r = true.
Proof.
  simpl. intros H. apply andb_true_iff in H. destruct H as [Hgw Hr].
  apply andb_true_iff in Hgw. destruct Hgw as [Hg Hw].
  repeat split; [apply is_gap_all_space, Hg | exact Hw | exact Hr].
Qed.


(** The loop on what is left of a line with words left. *)
Lemma read_labels_spelt (trail : string) (r : list (string * string)) :
  all_space trail = true ->
  forall g w fuel str acc,
    all_space g = true -> is_word w = true -> gapped r = true ->
    (List.length r + (if is_empty trail then 1 else 2) <= fuel)%nat ->
    read_labels fuel (mk_istringstream (spell ((g, w) :: r) trail) false false) str acc =
    Some (acc ++ with_repeat (w :: map snd r) trail).
Proof.
  intros Ht. induction r as [|[g' w'] r IH]; intros g w fuel str acc Hg Hw Hr Hfuel.
  - destruct fuel as [|fuel]; [destruct (is_empty trail); simpl in Hfuel; lia|].
    cbn [read_labels]. rewrite (extract_spelt g w [] trail str Hg Hw Hr Ht).
    cbn [eofbit spell]. unfold with_repeat. cbn [map].
    destruct (is_empty trail) eqn:E; [reflexivity|].
    destruct fuel as [|fuel]; [simpl in Hfuel; lia|].
    cbn [read_labels]. rewrite (extract_blank trail w Ht). cbn [eofbit last].
    rewrite <- app_assoc. reflexivity.
  - destruct fuel as [|fuel]; [simpl in Hfuel; lia|].
    cbn [read_labels]. rewrite (extract_spelt g w _ trail str Hg Hw Hr Ht).
    destruct (gapped_cons g' w' r Hr) as [Hg' [Hw' Hr']].
    cbn [eofbit]. rewrite (spell_not_empty g' w' r trail Hw').
    rewrite (IH g' w' fuel w (acc ++ [w]) Hg' Hw' Hr') by (simpl in Hfuel; lia).
    rewrite <- app_assoc. unfold with_repeat. cbn [map snd].
    destruct (is_empty trail); reflexivity.
Qed.

Lemma spell_length (items : list (string * string)) (trail : string) :
  gapped items = true ->
  (List.length items + String.length trail <= String.length (spell items trail))%nat.
Proof.
  induction items as [|[g w] r IH]; intros H; simpl; [lia|].
  destruct (gapped_cons g w r H) as [_ [Hw Hr]]. specialize (IH Hr).
  rewrite !string_length_app.
  unfold is_word in Hw. destruct w as [|c w]; [discriminate|]. simpl. lia.
Qed.

Lemma well_spelt_length (items : list (string * string)) (trail : string) :
  well_spelt items = true ->
  (List.length items + String.length trail <= String.length (spell items trail))%nat.
Proof.
  destruct items as [|[g w] r]; simpl; [lia|]. intros H.
  apply andb_true_iff in H. destruct H as [H Hr].
  apply andb_true_iff in H. destruct H as [_ Hw].
  pose proof (spell_length r trail Hr) as IH.
  rewrite !string_length_app.
  unfold is_word in Hw. destruct w as [|c w]; [discriminate|]. simpl. lia.
Qed.

Lemma is_empty_length (t : string) :
  ((if is_empty t then 1 else 2) <= 1 + String.length t)%nat.
Proof. destruct t; simpl; lia. Qed.

(** The three leading labels and the loop, on a line of words. *)
Lemma header_labels_of_words (items : list (string * string)) (trail : string) (fuel : nat) :
  well_spelt items = true ->
  all_space trail = true ->
  (String.length (spell items trail) < fuel)%nat ->
  header_labels fuel (spell items trail) = Some (labels_of items trail).
Proof.
  intros Hitems Ht Hfuel.
  pose proof (well_spelt_length items trail Hitems) as Hlen.
  destruct fuel as [|fuel]; [lia|].
  unfold header_labels, open_line, labels_of.
  destruct items as [|[g1 w1] r1].
  { cbn [spell]. rewrite (extract_blank trail _ Ht), !extract_at_end.
    cbn [read_labels]. rewrite extract_at_end. reflexivity. }
  cbn [well_spelt] in Hitems.
  apply andb_true_iff in Hitems. destruct Hitems as [H Hr1].
  apply andb_true_iff in H. destruct H as [Hg1 Hw1].
  rewrite (extract_spelt g1 w1 r1 trail _ Hg1 Hw1 Hr1 Ht).
  destruct r1 as [|[g2 w2] r2].
  { cbn [spell map skipn]. destruct (is_empty trail) eqn:E.
    - rewrite ?extract_at_end. cbn [read_labels]. rewrite extract_at_end. reflexivity.
    - rewrite (extract_blank trail _ Ht). cbv beta iota.
      rewrite ?extract_at_end. cbn [read_labels].
      rewrite extract_at_end. reflexivity. }
  destruct (gapped_cons g2 w2 r2 Hr1) as [Hg2 [Hw2 Hr2]].
  rewrite (spell_not_empty g2 w2 r2 trail Hw2).
  rewrite (extract_spelt g2 w2 r2 trail _ Hg2 Hw2 Hr2 Ht).
  destruct r2 as [|[g3 w3] r3].
  { cbn [spell map skipn]. destruct (is_empty trail) eqn:E.
    - rewrite ?extract_at_end. cbn [read_labels]. rewrite extract_at_end. reflexivity.
    - rewrite (extract_blank trail _ Ht). cbv beta iota.
      rewrite ?extract_at_end. cbn [read_labels].
      rewrite extract_at_end. reflexivity. }
  destruct (gapped_cons g3 w3 r3 Hr2) as [Hg3 [Hw3 Hr3]].
  rewrite (spell_not_empty g3 w3 r3 trail Hw3).
  rewrite (extract_spelt g3 w3 r3 trail _ Hg3 Hw3 Hr3 Ht).
  destruct r3 as [|[g4 w4] r4].
  { cbn [spell map skipn]. destruct (is_empty trail) eqn:E.
    - cbn [read_labels]. rewrite extract_at_end. reflexivity.
    - cbn [read_labels]. rewrite (extract_blank trail _ Ht). reflexivity. }
  destruct (gapped_cons g4 w4 r4 Hr3) as [Hg4 [Hw4 Hr4]].
  rewrite (spell_not_empty g4 w4 r4 trail Hw4).
  rewrite (read_labels_spelt trail r4 Ht g4 w4 (S fuel) _ [] Hg4 Hw4 Hr4).
  - cbn [map snd skipn app]. unfold with_repeat. reflexivity.
  - pose proof (is_empty_length trail) as He. cbn [List.length] in Hlen.
    destruct (is_empty trail); lia.
Qed.

(** X7.  The labels the header gives.  On a line of words separated by
    white space, with or without white space at its end, the loop ends
    within one iteration per character and [pop_info] holds the words
    after the third; when white space ends the line the last of them is
    there twice; when the line has no fourth word [pop_info] holds one
    empty label. *)
Theorem header_labels_spelt (items : list (string * string)) (trail : string) (fuel : nat) :
  well_spelt items = true ->
  all_space trail = true ->
  (String.length (spell items trail) < fuel)%nat ->
  header_labels fuel (spell items trail) = Some (labels_of items trail) /\
  labels_of items trail =
    match skipn 3 (map snd items) with
    | [] => [EmptyString]
    | w :: ws => with_repeat (w :: ws) trail
    end.
Proof.
  intros Hitems Htrail Hfuel. split.
  - apply header_labels_of_words; assumption.
  - unfold labels_of, with_repeat. destruct (skipn 3 (map snd items)); reflexivity.
Qed.

(** Every line can be written as words and white space. *)
Lemma every_line_spelt (line : string) :
  exists items trail,
    well_spelt items = true /\ all_space trail = true /\ line = spell items trail.
Proof.
  induction line as [|c line IH].
  - exists [], EmptyString. repeat split.
  - destruct IH as [items [trail [Hitems [Htrail ->]]]].
    destruct (isspace c) eqn:Hc.
    + destruct items as [|[g w] r].
      * exists [], (String c trail). split; [reflexivity|]. split; [|reflexivity].
        cbn [all_space]. rewrite Hc. exact Htrail.
      * exists ((String c g, w) :: r), trail. split; [|split; [exact Htrail | reflexivity]].
        cbn [well_spelt all_space] in *. rewrite Hc. exact Hitems.
    + assert (Hw1 : is_word (String c EmptyString) = true).
      { unfold is_word. cbn [is_empty no_space negb]. rewrite Hc. reflexivity. }
      destruct items as [|[g w] r].
      * exists [(EmptyString, String c EmptyString)], trail.
        split; [|split; [exact Htrail | reflexivity]].
        cbn [well_spelt all_space gapped forallb]. rewrite Hw1. reflexivity.
      * cbn [well_spelt] in Hitems.
        apply andb_true_iff in Hitems. destruct Hitems as [H Hr].
        apply andb_true_iff in H. destruct H as [Hg Hw].
        destruct g as [|d g].
        -- exists ((EmptyString, String c w) :: r), trail.
           split; [|split; [exact Htrail | reflexivity]].
           cbn [well_spelt all_space]. rewrite Hr.
           unfold is_word in *. cbn [is_empty no_space negb]. rewrite Hc.
           apply andb_true_iff in Hw. destruct Hw as [_ Hw]. rewrite Hw. reflexivity.
        -- exists ((EmptyString, String c EmptyString) :: (String d g, w) :: r), trail.
           split; [|split; [exact Htrail | reflexivity]].
           cbn [well_spelt all_space gapped forallb fst snd]. rewrite Hw1, Hw.
           unfold is_gap. cbn [is_empty negb]. rewrite Hg. exact Hr.
Qed.

Lemma labels_of_not_nil (items : list (string * string)) (trail : string) :
  labels_of items trail <> [].
Proof.
  unfold labels_of. destruct (skipn 3 (map snd items)) as [|w ws]; [discriminate|].
  destruct (is_empty trail); discriminate.
Qed.

(** X8.  The loop that reads the labels ends on every header line, within
    one iteration more than the line has characters, and leaves at least
    one label. *)
Theorem header_loop_ends (line : string) :
  exists labels,
    header_labels (S (String.length line)) line = Some labels /\ labels <> [].
Proof.
  destruct (every_line_spelt line) as [items [trail [Hitems [Htrail ->]]]].
  exists (labels_of items trail). split.
  - apply header_labels_of_words; [exact Hitems | exact Htrail | lia].
  - apply labels_of_not_nil.
Qed.

Lemma int_wrap_small (z : Z) : -2 ^ 31 <= z < 2 ^ 31 -> int_wrap z = z.
Proof.
  intros Hz. unfold int_wrap.
  rewrite Z.mod_small by lia. lia.
Qed.

Lemma labels_of_length (items : list (string * string)) (trail : string) (n : nat) :
  List.length items = (3 + n)%nat ->
  List.length (labels_of items trail) =
  match n with
  | O => 1%nat
  | S _ => (n + (if is_empty trail then 0 else 1))%nat
  end.
Proof.
  intros Hlen. unfold labels_of.
  assert (Hskip : List.length (skipn 3 (map snd items)) = n).
  { rewrite length_skipn, length_map. lia. }
  destruct (skipn 3 (map snd items)) as [|w ws]; simpl in Hskip; subst n.
  - reflexivity.
  - destruct (is_empty trail); [simpl; lia|].
    rewrite length_app. simpl. lia.
Qed.

(** X9.  The number of populations the header gives.  With [n] labels
    after the first three it is [n / 9], rounded down, when the line ends
    with its last label, and [(n + 1) / 9] when white space ends the line:
    the label read twice is counted. *)
Theorem header_num_pops_count (items : list (string * string)) (trail : string) (n : nat) :
  well_spelt items = true ->
  all_space trail = true ->
  List.length items = (3 + S n)%nat ->
  Z.of_nat (String.length (spell items trail)) < 2 ^ 31 ->
  header_num_pops (spell items trail) =
  Some (Z.of_nat (S n + (if is_empty trail then 0 else 1)) / 9).
Proof.
  intros Hitems Htrail Hlen Hsmall. unfold header_num_pops.
  rewrite (header_labels_of_words items trail _ Hitems Htrail) by lia.
  cbn [option_map]. unfold num_pops_of.
  rewrite (labels_of_length items trail (S n) Hlen).
  pose proof (well_spelt_length items trail Hitems) as Hle.
  rewrite int_wrap_small.
  - rewrite Z.quot_div_nonneg by lia. reflexivity.
  - destruct (is_empty trail); lia.
Qed.

(** X10.  A header with three labels and nine labels for each of [k]
    populations gives [k] populations, whether or not white space (a
    carriage return, say) ends the line. *)
Theorem header_num_pops_exact (items : list (string * string)) (trail : string) (k : nat) :
  well_spelt items = true ->
  all_space trail = true ->
  List.length items = (3 + 9 * k)%nat ->
  Z.of_nat (String.length (spell items trail)) < 2 ^ 31 ->
  header_num_pops (spell items trail) = Some (Z.of_nat k).
Proof.
  intros Hitems Htrail Hlen Hsmall. unfold header_num_pops.
  rewrite (header_labels_of_words items trail _ Hitems Htrail) by lia.
  cbn [option_map]. unfold num_pops_of.
  rewrite (labels_of_length items trail (9 * k) Hlen).
  pose proof (well_spelt_length items trail Hitems) as Hle.
  f_equal. destruct k as [|k].
  - reflexivity.
  - replace (9 * S k)%nat with (S (8 + 9 * k)) by lia. cbv iota beta.
    rewrite int_wrap_small by (destruct (is_empty trail); lia).
    rewrite Z.quot_div_nonneg by lia.
    destruct (is_empty trail).
    + replace (Z.of_nat (S (8 + 9 * k) + 0)) with (Z.of_nat (S k) * 9) by lia.
      apply Z.div_mul. lia.
    + replace (Z.of_nat (S (8 + 9 * k) + 1)) with (1 + Z.of_nat (S k) * 9) by lia.
      rewrite Z.div_add by lia. reflexivity.
Qed.

Lemma header_labels_spelt_witness :
  header_labels 200 (spell header_items carriage_return)
  = Some (labels_of header_items carriage_return).
Proof.
  destruct (header_labels_spelt header_items carriage_return 200) as [H _];
    [vm_compute; reflexivity | vm_compute; reflexivity | vm_compute; lia | exact H].
Defined.

Lemma header_num_pops_count_witness :
  header_num_pops (spell (firstn 11 header_items) " "%string)
  = Some (Z.of_nat (8 + 1) / 9).
Proof.
  apply (header_num_pops_count (firstn 11 header_items) " "%string 7);
    vm_compute; reflexivity.
Defined.

Lemma header_num_pops_exact_witness :
  header_num_pops (spell header_items carriage_return) = Some (Z.of_nat 1).
Proof.
  apply (header_num_pops_exact header_items carriage_return 1);
    vm_compute; reflexivity.
Defined.

Lemma private_alleles_ignore_order_witness :
  Permutation (populations two_fixed_line) (populations swapped_line) /\
  (In "A"%string
      (map o_private_allele
         (rows_of_line default_min_Nc default_cv atof_decimal
            (fun x _ => x) (fun x => x) first_line two_fixed_line)) <->
   In "A"%string
      (map o_private_allele
         (rows_of_line default_min_Nc default_cv atof_decimal
            (fun x _ => x) (fun x => x) first_line swapped_line))).
Proof.
  assert (Hp : Permutation (populations two_fixed_line) (populations swapped_line))
    by apply perm_swap.
  split; [exact Hp|].
  apply (private_alleles_ignore_order default_min_Nc default_cv atof_decimal
           (fun x _ => x) (fun x => x) first_line first_line
           two_fixed_line swapped_line "A" Hp).
Defined.

Lemma total_coverage_is_the_sum_witness :
  Forall (fun p => 0 <= pop_cov p) (populations low_Nc_line) /\
  tot_cov (scan_line default_min_Nc default_cv atof_decimal
             (Nc_prev first_line) low_Nc_line) = 10 + (7 + (12 + 0)).
Proof.
  assert (Hpos : Forall (fun p => 0 <= pop_cov p) (populations low_Nc_line)).
  { repeat constructor; simpl; lia. }
  split; [exact Hpos|].
  destruct (total_coverage_is_the_sum default_min_Nc default_cv atof_decimal
              (fun x _ => x) (fun x => x) first_line low_Nc_line Hpos)
    as [H _]; [reflexivity | exact H].
Defined.

(** * The loop over the lines at the examples *)

Lemma complete_lines_are_independent_witness :
  Forall (fun g => complete_line (List.length (v_cells variables_for_two)) g = true)
         [read_two_fixed; read_two_fixed] /\
  run_lines default_min_Nc default_cv atof_decimal (fun x _ => x) (fun x => x)
    variables_for_two [read_two_fixed; read_two_fixed]
  = flat_map
      (fun g => rows_of_line default_min_Nc default_cv atof_decimal
                  (fun x _ => x) (fun x => x) first_line
                  (line_read (List.length (v_cells variables_for_two)) g))
      [read_two_fixed; read_two_fixed].
Proof.
  assert (H : Forall (fun g => complete_line (List.length (v_cells variables_for_two)) g
                               = true)
                     [read_two_fixed; read_two_fixed])
    by (repeat constructor).
  split; [exact H|].
  apply (complete_lines_are_independent default_min_Nc default_cv atof_decimal
           (fun x _ => x) (fun x => x) variables_for_two _ first_line H).
Defined.

(** The line [two_fixed_line], then an empty line: the two rows, twice. *)
Example rows_written_again :
  line_read 2 read_two_fixed = two_fixed_line /\
  map (fun r => (o_site r, o_private_allele r, o_id_pop r))
      (run_lines default_min_Nc default_cv atof_decimal (fun x _ => x) (fun x => x)
         variables_for_two [read_two_fixed; blank_line])
  = [(100, "A"%string, 1%nat); (100, "T"%string, 2%nat);
     (100, "A"%string, 1%nat); (100, "T"%string, 2%nat)].
Proof. vm_compute. split; reflexivity. Qed.
